(** * RpT-Minigames-Server: the interactive RPTL terminal client (client.py)

    A shallow embedding of the two coroutines [send_messages] and
    [receive_messages], of the signal callback [require_input] and of the
    supervisor [rptl_connection], as a labelled transition system over the
    objects they share: the connection, the console lock and the
    [input_required] event.  One transition is one stretch of a coroutine
    between two points where the event loop may schedule something else
    (every [await], and the entry and exit of [async with]). *)

From Stdlib Require Import String Ascii List Bool Arith Lia.
Import ListNotations.
Open Scope string_scope.
Open Scope list_scope.

(** ** Shared objects *)

Inductive actor := Receiver | Sender | Handler.

Definition actor_eqb (a b : actor) : bool :=
  match a, b with
  | Receiver, Receiver | Sender, Sender | Handler, Handler => true
  | _, _ => false
  end.

(** asyncio.Event, as far as the client uses it: a flag with [set], [clear]
    and a [wait] that returns once the flag is up. *)
Module Event.
Definition t := bool.
Definition new : t := false.
Definition set (e : t) : t := true.
Definition clear (e : t) : t := false.
Definition is_set (e : t) : bool := e.
End Event.

(** asyncio.Lock: free, or held by one coroutine. *)
Module Lock.
Definition t := option actor.
Definition new : t := None.
Definition locked (l : t) : bool := match l with Some _ => true | None => false end.
Definition acquire (who : actor) (l : t) : option t :=
    match l with None => Some (Some who) | Some _ => None end.
Definition release (l : t) : t := None.
End Lock.

(** Exceptions that reach the coroutines: the one the [except] clauses name,
    and everything else. *)
Inductive exn :=
| ConnectionClosed (reason : string)
| OtherError (name : string).

(** ** Program points *)

(** receive_messages, lines 44-53. *)
Inductive rpc_t :=
| R_loop                       (* line 44: while connection.open *)
| R_recv                       (* line 46: await connection.recv() *)
| R_acquire (m : string)       (* line 48: async with console_lock, entry *)
| R_print (m : string)         (* line 49: print, lock held *)
| R_release                    (* line 48: async with, exit *)
| R_except (reason : string)   (* line 51: print in the except clause *)
| R_require                    (* line 53: require_input(input_required) *)
| R_done
| R_failed (name : string).

(** send_messages, lines 25-38. *)
Inductive spc_t :=
| S_loop                       (* line 25: while connection.open *)
| S_wait                       (* line 27: await input_required.wait() *)
| S_check                      (* line 30: if connection.open *)
| S_acquire                    (* line 31: async with console_lock, entry *)
| S_input                      (* line 32: input, lock held *)
| S_release (line : string)    (* line 31: async with, exit *)
| S_send (line : string)       (* line 34: await connection.send(rptl_message) *)
| S_clear                      (* line 36: input_required.clear() *)
| S_except (reason : string)   (* line 38: print in the except clause *)
| S_done
| S_failed (name : string).

(** Modelled from the spec: the transport collaborator (the websockets
    connection object, an external library).  It is [open] until it closes,
    once, with a reason; inbound messages queue up in [inbox]; [recv] hands
    out queued messages and fails with ConnectionClosed on an empty queue of
    a closed connection; [send] fails with ConnectionClosed once the
    connection is closed. *)
Record state := mkState {
  closed : option string;      (* None: connection.open; Some r: closed, reason r *)
  inbox  : list string;
  lock   : Lock.t;             (* console_lock *)
  latch  : Event.t;            (* input_required *)
  rpc    : rpc_t;
  spc    : spc_t
}.

Definition is_open (s : state) : bool :=
  match closed s with None => true | Some _ => false end.

Definition set_closed v s := mkState v (inbox s) (lock s) (latch s) (rpc s) (spc s).
Definition set_inbox v s := mkState (closed s) v (lock s) (latch s) (rpc s) (spc s).
Definition set_lock v s := mkState (closed s) (inbox s) v (latch s) (rpc s) (spc s).
Definition set_latch v s := mkState (closed s) (inbox s) (lock s) v (rpc s) (spc s).
Definition set_rpc v s := mkState (closed s) (inbox s) (lock s) (latch s) v (spc s).
Definition set_spc v s := mkState (closed s) (inbox s) (lock s) (latch s) (rpc s) v.

(** rptl_connection, lines 60-65: fresh lock and event, both tasks at the top
    of their loops, on a connection that websockets.connect returned open. *)
Definition init : state := mkState None [] Lock.new Event.new R_loop S_loop.

(** ** Observable actions *)

Inductive termop :=
| PrintRecv (m : string)       (* print(f"Recv: {rptl_message}") *)
| PrintClosed (reason : string)(* print(f"Connection was closed: {closed.reason}") *)
| PrintBackspaces              (* print("\b\b", end="") *)
| ReadLine (line : string).    (* input("Send: ") *)

Inductive event :=
| Term (who : actor) (op : termop) (holder : Lock.t)  (* holder: console_lock at that moment *)
| Sent (m : string)                                   (* connection.send succeeded *)
| LatchSet (who : actor)
| LatchClear
| LoopTest (who : actor) (result : bool).             (* while connection.open *)

Definition nl : string := String (ascii_of_nat 10) EmptyString.
Definition backspaces : string :=
  String (ascii_of_nat 8) (String (ascii_of_nat 8) EmptyString).

(** What a terminal operation writes to stdout. *)
Definition rendered (op : termop) : string :=
  match op with
  | PrintRecv m => ("Recv: " ++ m ++ nl)%string
  | PrintClosed r => ("Connection was closed: " ++ r ++ nl)%string
  | PrintBackspaces => backspaces
  | ReadLine _ => "Send: "
  end.

(** The terminal operations of a trace, in order. *)
Fixpoint terminal_ops (tr : list event) : list termop :=
  match tr with
  | [] => []
  | Term _ op _ :: tr' => op :: terminal_ops tr'
  | _ :: tr' => terminal_ops tr'
  end.

(** What the program has written to stdout. *)
Definition terminal_output (tr : list event) : string :=
  fold_right (fun op acc => (rendered op ++ acc)%string) "" (terminal_ops tr).

(** ** The code *)

(** require_input, lines 17-19. *)
Definition require_input (who : actor) (s : state) : list event * state :=
  ([Term who PrintBackspaces (lock s); LatchSet who],
   set_latch (Event.set (latch s)) s).

(** Leaving an [async with console_lock] block by an exception releases the
    lock. *)
Definition unwind (who : actor) (s : state) : state :=
  match lock s with
  | Some h => if actor_eqb h who then set_lock (Lock.release (lock s)) s else s
  | None => s
  end.

(** An exception raised in the [try] body of receive_messages:
    [except websockets.ConnectionClosed as closed] or propagation. *)
Definition receiver_raise (e : exn) (s : state) : state :=
  match e with
  | ConnectionClosed r => set_rpc (R_except r) (unwind Receiver s)
  | OtherError n => set_rpc (R_failed n) (unwind Receiver s)
  end.

(** The same for send_messages. *)
Definition sender_raise (e : exn) (s : state) : state :=
  match e with
  | ConnectionClosed r => set_spc (S_except r) (unwind Sender s)
  | OtherError n => set_spc (S_failed n) (unwind Sender s)
  end.

Definition receive_messages_step (s : state) : option (list event * state) :=
  match rpc s with
  | R_loop =>
      Some ([LoopTest Receiver (is_open s)],
            set_rpc (if is_open s then R_recv else R_require) s)
  | R_recv =>
      match inbox s with
      | m :: rest => Some ([], set_rpc (R_acquire m) (set_inbox rest s))
      | [] =>
          match closed s with
          | Some r => Some ([], receiver_raise (ConnectionClosed r) s)
          | None => None
          end
      end
  | R_acquire m =>
      match Lock.acquire Receiver (lock s) with
      | Some l => Some ([], set_rpc (R_print m) (set_lock l s))
      | None => None
      end
  | R_print m => Some ([Term Receiver (PrintRecv m) (lock s)], set_rpc R_release s)
  | R_release => Some ([], set_rpc R_loop (set_lock (Lock.release (lock s)) s))
  | R_except r => Some ([Term Receiver (PrintClosed r) (lock s)], set_rpc R_loop s)
  | R_require =>
      let (ev, s') := require_input Receiver s in Some (ev, set_rpc R_done s')
  | R_done | R_failed _ => None
  end.

Definition send_messages_step (typed : string) (s : state) : option (list event * state) :=
  match spc s with
  | S_loop =>
      Some ([LoopTest Sender (is_open s)],
            set_spc (if is_open s then S_wait else S_done) s)
  | S_wait => if Event.is_set (latch s) then Some ([], set_spc S_check s) else None
  | S_check => Some ([], set_spc (if is_open s then S_acquire else S_clear) s)
  | S_acquire =>
      match Lock.acquire Sender (lock s) with
      | Some l => Some ([], set_spc S_input (set_lock l s))
      | None => None
      end
  | S_input => Some ([Term Sender (ReadLine typed) (lock s)], set_spc (S_release typed) s)
  | S_release line => Some ([], set_spc (S_send line) (set_lock (Lock.release (lock s)) s))
  | S_send line =>
      match closed s with
      | None => Some ([Sent line], set_spc S_clear s)
      | Some r => Some ([], sender_raise (ConnectionClosed r) s)
      end
  | S_clear => Some ([LatchClear], set_spc S_loop (set_latch (Event.clear (latch s)) s))
  | S_except r => Some ([Term Sender (PrintClosed r) (lock s)], set_spc S_loop s)
  | S_done | S_failed _ => None
  end.

(** Program points inside the [while] loops, where a failure can be raised. *)
Definition in_loop_r (pc : rpc_t) : bool :=
  match pc with R_require | R_done | R_failed _ => false | _ => true end.
Definition in_loop_s (pc : spc_t) : bool :=
  match pc with S_done | S_failed _ => false | _ => true end.

(** asyncio.gather(receiving, sending), line 67: the first exception of a task
    is raised to asyncio.run, which ends the process; otherwise the process
    runs until both tasks return. *)
Inductive outcome := Running | Exited | Fatal (name : string).

Definition rptl_connection (s : state) : outcome :=
  match rpc s, spc s with
  | R_failed n, _ => Fatal n
  | _, S_failed n => Fatal n
  | R_done, S_done => Exited
  | _, _ => Running
  end.

Definition crashed (s : state) : bool :=
  match rptl_connection s with Fatal _ => true | _ => false end.
Definition finished (s : state) : bool :=
  match rptl_connection s with Exited => true | _ => false end.

(** What can happen next: the transport queues a message or closes, the
    operator presses Ctrl+C, a coroutine runs to its next program point
    ([typed] is what the operator enters if that stretch is the [input]
    call), or the pending operation of a coroutine raises something that is
    not ConnectionClosed. *)
Inductive label :=
| Deliver (m : string)
| Close (reason : string)
| Sigint
| Rcv
| Snd (typed : string)
| Fault (who : actor) (name : string).

Definition step (l : label) (s : state) : option (list event * state) :=
  match rptl_connection s with
  | Running =>
      match l with
      | Deliver m => if is_open s then Some ([], set_inbox (inbox s ++ [m]) s) else None
      | Close r => if is_open s then Some ([], set_closed (Some r) s) else None
      | Sigint => Some (require_input Handler s)
      | Rcv => receive_messages_step s
      | Snd typed => send_messages_step typed s
      | Fault Receiver n =>
          if in_loop_r (rpc s) then Some ([], receiver_raise (OtherError n) s) else None
      | Fault Sender n =>
          if in_loop_s (spc s) then Some ([], sender_raise (OtherError n) s) else None
      | Fault Handler _ => None
      end
  | _ => None
  end.

Fixpoint run (ls : list label) (s : state) : option (list event * state) :=
  match ls with
  | [] => Some ([], s)
  | l :: ls' =>
      match step l s with
      | Some (ev, s1) =>
          match run ls' s1 with
          | Some (tr, s2) => Some (ev ++ tr, s2)
          | None => None
          end
      | None => None
      end
  end.

(** ** Reading traces *)

Definition by_actor (who : actor) (e : event) : bool :=
  match e with
  | Term w _ _ => actor_eqb w who
  | Sent _ => actor_eqb Sender who
  | LatchSet w => actor_eqb w who
  | LatchClear => actor_eqb Sender who
  | LoopTest w _ => actor_eqb w who
  end.

(** The actions of one actor, in order. *)
Definition events_of (who : actor) (tr : list event) : list event :=
  filter (by_actor who) tr.

(** An action without the snapshot of the lock. *)
Definition unheld (e : event) : event :=
  match e with Term w op _ => Term w op None | _ => e end.

Definition is_prompt (e : event) : bool :=
  match e with Term Sender (ReadLine _) _ => true | _ => false end.
Definition is_sent (e : event) : bool :=
  match e with Sent _ => true | _ => false end.
Definition is_clear (e : event) : bool :=
  match e with LatchClear => true | _ => false end.
Definition is_looptest (who : actor) (e : event) : bool :=
  match e with LoopTest w _ => actor_eqb w who | _ => false end.
Definition is_latch_set (who : actor) (e : event) : bool :=
  match e with LatchSet w => actor_eqb w who | _ => false end.
Definition is_notice (e : event) : bool :=
  match e with Term _ (PrintClosed _) _ => true | _ => false end.

Definition count (p : event -> bool) (tr : list event) : nat :=
  length (filter p tr).

(** The outbound messages pushed to the channel, in order. *)
Fixpoint sent (tr : list event) : list string :=
  match tr with
  | [] => []
  | Sent m :: tr' => m :: sent tr'
  | _ :: tr' => sent tr'
  end.

Definition is_snd (l : label) : bool := match l with Snd _ => true | _ => false end.
Definition is_rcv (l : label) : bool := match l with Rcv => true | _ => false end.
Definition is_sigint (l : label) : bool := match l with Sigint => true | _ => false end.
Definition is_fault (l : label) : bool := match l with Fault _ _ => true | _ => false end.
Definition is_close (l : label) : bool := match l with Close _ => true | _ => false end.
Definition is_deliver (l : label) : bool := match l with Deliver _ => true | _ => false end.

Definition occurrences (p : label -> bool) (ls : list label) : nat :=
  length (filter p ls).

(** No label of the schedule satisfies [p]. *)
Definition without (p : label -> bool) (ls : list label) : bool :=
  forallb (fun l => negb (p l)) ls.

(** ** Invariants of the reachable states *)

Definition r_holds (pc : rpc_t) : bool :=
  match pc with R_print _ | R_release => true | _ => false end.
Definition s_holds (pc : spc_t) : bool :=
  match pc with S_input | S_release _ => true | _ => false end.

(** The lock is held exactly by the coroutine that is inside its
    [async with] block. *)
Definition lock_ok (s : state) : bool :=
  match lock s with
  | None => negb (r_holds (rpc s)) && negb (s_holds (spc s))
  | Some Receiver => r_holds (rpc s) && negb (s_holds (spc s))
  | Some Sender => s_holds (spc s) && negb (r_holds (rpc s))
  | Some Handler => false
  end.

(** Between the return of [wait] and [clear], the event is set. *)
Definition s_inflight (pc : spc_t) : bool :=
  match pc with
  | S_check | S_acquire | S_input | S_release _ | S_send _ | S_clear => true
  | _ => false
  end.
Definition latch_ok (s : state) : bool :=
  if s_inflight (spc s) then Event.is_set (latch s) else true.

Definition inv (s : state) : Prop :=
  lock_ok s = true /\
  latch_ok s = true /\
  (forall r, rpc s = R_except r -> closed s = Some r) /\
  (rpc s = R_require \/ rpc s = R_done -> is_open s = false) /\
  (forall r, spc s = S_except r -> closed s = Some r) /\
  (spc s = S_done -> is_open s = false).

(** ** The console lock and the terminal *)

Definition holds (who : actor) (h : Lock.t) : bool :=
  match h with Some a => actor_eqb a who | None => false end.

(** A terminal operation performed by the holder of the console lock. *)
Definition protected (e : event) : bool :=
  match e with Term who _ h => holds who h | _ => true end.

(** The operations the source wraps in [async with console_lock]. *)
Definition guarded_op (op : termop) : bool :=
  match op with PrintRecv _ | ReadLine _ => true | _ => false end.

(** The lock is held for an operation exactly when the source guards it. *)
Definition disciplined (e : event) : bool :=
  match e with
  | Term who op h => Bool.eqb (holds who h) (guarded_op op)
  | _ => true
  end.

(** The connection closes while the receiver waits in [recv]; the receiver
    then prints its notice. *)
Definition notice_schedule : list label := [Rcv; Close "bye"; Rcv; Rcv].

(** ** Proof tactics *)

Ltac break_match H :=
  match type of H with
  | context [match ?x with _ => _ end] => is_var x; destruct x
  | context [if ?x then _ else _] => is_var x; destruct x
  | context [match ?x with _ => _ end] => revert H; destruct x eqn:?; intro H
  | context [if ?x then _ else _] => revert H; destruct x eqn:?; intro H
  end.

Ltac unfold_step H :=
  unfold receive_messages_step, send_messages_step, require_input,
    receiver_raise, sender_raise, unwind, is_open,
    Lock.acquire, Lock.release, Event.set, Event.clear, Event.is_set,
    in_loop_r, in_loop_s,
    set_closed, set_inbox, set_lock, set_latch, set_rpc, set_spc in H;
  cbn in H.

(** All the ways a transition of a state given by its fields can be taken,
    one goal each. *)
Ltac step_cases H :=
  let R := fresh "Hrunning" in
  unfold step in H;
  match type of H with
  | context [rptl_connection ?s] =>
      revert H; destruct (rptl_connection s) eqn:R; intro H;
      [ | discriminate H .. ]
  end;
  unfold_step H;
  repeat (first [ discriminate H | break_match H; cbn in H ]);
  try discriminate H;
  injection H as <- <-.

Ltac bool_crush :=
  cbn in *;
  repeat match goal with
    | a : actor |- _ => destruct a; cbn in *; try discriminate
    | H : context [s_holds ?x] |- _ => destruct (s_holds x); cbn in *; try discriminate
    | H : context [r_holds ?x] |- _ => destruct (r_holds x); cbn in *; try discriminate
    | H : context [s_inflight ?x] |- _ => destruct (s_inflight x); cbn in *; try discriminate
    end;
  try discriminate; try congruence; auto.


(** ** How the loops wind down *)

Definition notice (who : actor) (r : string) : event := Term who (PrintClosed r) None.

(** The receiver after a [recv] that raises ConnectionClosed with reason [r]:
    where it is, what it has done since (without the snapshots of the lock),
    and in how many of its own steps. *)
Definition receiver_unwinding_at (r : string) (pc : rpc_t)
    (done : list event) (n : nat) : Prop :=
  match pc with
  | R_recv => done = [] /\ n = 0
  | R_except r' => r' = r /\ done = [] /\ n = 1
  | R_loop => done = [notice Receiver r] /\ n = 2
  | R_require => done = [notice Receiver r; LoopTest Receiver false] /\ n = 3
  | R_done =>
      done = [notice Receiver r; LoopTest Receiver false;
              Term Receiver PrintBackspaces None; LatchSet Receiver] /\ n = 4
  | _ => False
  end.

(** The sender after a [send] that raises ConnectionClosed with reason [r]. *)
Definition sender_unwinding_at (r : string) (pc : spc_t)
    (done : list event) (n : nat) : Prop :=
  match pc with
  | S_send _ => done = [] /\ n = 0
  | S_except r' => r' = r /\ done = [] /\ n = 1
  | S_loop => done = [notice Sender r] /\ n = 2
  | S_done => done = [notice Sender r; LoopTest Sender false] /\ n = 3
  | _ => False
  end.

(** The sender after a [wait] that returned on a closed connection. *)
Definition sender_skipping_at (pc : spc_t) (done : list event) (n : nat) : Prop :=
  match pc with
  | S_check => done = [] /\ n = 0
  | S_clear => done = [] /\ n = 1
  | S_loop => done = [LatchClear] /\ n = 2
  | S_done => done = [LatchClear; LoopTest Sender false] /\ n = 3
  | _ => False
  end.

Create Rewrite HintDb trace.

Ltac trace_simpl :=
  autorewrite with trace;
  cbn;
  rewrite ?app_nil_r, ?Nat.add_0_r.

Ltac split_hyps :=
  repeat match goal with
    | H : _ /\ _ |- _ => destruct H
    | H : False |- _ => contradiction
    end.

Ltac phase_done :=
  split_hyps; subst; repeat split; auto; try discriminate; try congruence;
  try lia;
  try (repeat match goal with H : _ = _ |- _ => rewrite H end;
       cbn; first [ reflexivity | lia ]).

(** [xs] is an initial segment of [full]. *)
Definition prefix_of {A} (xs full : list A) : Prop :=
  exists rest, xs ++ rest = full.

(** ** Scenarios *)

(** Ctrl+C, the operator types a line, and the connection closes before the
    line is sent: the sender is about to call [send] on a closed connection. *)
Definition failed_send_prefix : list label :=
  [Sigint; Snd ""; Snd ""; Snd ""; Snd ""; Snd "ping"; Snd ""; Close "gone"].

(** The rest of that run of the sender: [send] raises, the notice is printed,
    the loop test fails. *)
Definition failed_send_rest : list label := [Snd ""; Snd ""; Snd ""].

(** ** One iteration of the sender *)

(** The actions of the sender up to its next loop test. *)
Fixpoint until_looptest (es : list event) : list event :=
  match es with
  | [] => []
  | e :: es' => if is_looptest Sender e then [] else e :: until_looptest es'
  end.

Definition iteration_over (es : list event) : bool :=
  existsb (is_looptest Sender) es.

(** The three ways through the body of the loop once [wait] has returned. *)
Definition skipped (it : list event) : Prop := it = [LatchClear].
Definition sent_and_cleared (it : list event) : Prop :=
  exists line, it = [Term Sender (ReadLine line) None; Sent line; LatchClear].
Definition send_failed (it : list event) : Prop :=
  exists line r, it = [Term Sender (ReadLine line) None; notice Sender r].

(** What the sender has done since [wait] returned, by program point. *)
Definition sender_iteration_at (pc : spc_t) (done : list event) : Prop :=
  match pc with
  | S_check | S_acquire | S_input => done = []
  | S_release l | S_send l => done = [Term Sender (ReadLine l) None]
  | S_clear =>
      done = [] \/ exists l, done = [Term Sender (ReadLine l) None; Sent l]
  | S_except _ => exists l, done = [Term Sender (ReadLine l) None]
  | S_loop => skipped done \/ sent_and_cleared done \/ send_failed done
  | S_failed _ => True
  | S_wait | S_done => False
  end.

(** ** Pending prompts *)

(** How many prompts the sender can still issue unless another Ctrl+C
    arrives. *)
Definition prompts_ahead (s : state) : nat :=
  match spc s with
  | S_acquire | S_input => 1
  | S_check => if is_open s then 1 else 0
  | S_loop | S_wait | S_except _ =>
      if is_open s && Event.is_set (latch s) then 1 else 0
  | _ => 0
  end.

(** The operator leans on Ctrl+C, then the sender runs one prompt cycle. *)
Definition burst_schedule : list label := [Sigint; Sigint; Sigint].
Definition after_burst_schedule : list label :=
  [Snd ""; Snd ""; Snd ""; Snd ""; Snd "ping"; Snd ""; Snd ""; Snd ""; Snd ""].

(** ** Scenario 2: one Ctrl+C, one line *)

(** Where the sender is, against what has happened so far: [k] Ctrl+C, the
    messages sent, the prompts issued, the clears done and the steps [ns] the
    sender has taken. *)
Definition ping_cycle_at (s : state) (k : nat) (out : list string)
    (prompts clears ns : nat) : Prop :=
  is_open s = true /\
  match spc s with
  | S_loop =>
      (k = 0 /\ latch s = false /\ out = [] /\ prompts = 0 /\ clears = 0 /\
       ns = 0) \/
      (k = 1 /\ latch s = true /\ out = [] /\ prompts = 0 /\ clears = 0 /\
       ns = 0) \/
      (k = 1 /\ latch s = false /\ out = ["ping"] /\ prompts = 1 /\
       clears = 1 /\ ns = 8)
  | S_wait =>
      (k = 0 /\ latch s = false /\ out = [] /\ prompts = 0 /\ clears = 0 /\
       ns = 1) \/
      (k = 1 /\ latch s = true /\ out = [] /\ prompts = 0 /\ clears = 0 /\
       ns = 1) \/
      (k = 1 /\ latch s = false /\ out = ["ping"] /\ prompts = 1 /\
       clears = 1 /\ ns = 9)
  | S_check =>
      k = 1 /\ latch s = true /\ out = [] /\ prompts = 0 /\ clears = 0 /\
      ns = 2
  | S_acquire =>
      k = 1 /\ latch s = true /\ out = [] /\ prompts = 0 /\ clears = 0 /\
      ns = 3
  | S_input =>
      k = 1 /\ latch s = true /\ out = [] /\ prompts = 0 /\ clears = 0 /\
      ns = 4
  | S_release l =>
      l = "ping" /\ k = 1 /\ latch s = true /\ out = [] /\
      prompts = 1 /\ clears = 0 /\ ns = 5
  | S_send l =>
      l = "ping" /\ k = 1 /\ latch s = true /\ out = [] /\
      prompts = 1 /\ clears = 0 /\ ns = 6
  | S_clear =>
      k = 1 /\ latch s = true /\ out = ["ping"] /\ prompts = 1 /\
      clears = 0 /\ ns = 7
  | _ => False
  end.

(** The operator presses Ctrl+C and types ping while a message arrives. *)
Definition ping_schedule : list label :=
  [Rcv; Snd "ping"; Sigint; Deliver "hello"; Snd "ping"; Rcv; Snd "ping";
   Snd "ping"; Snd "ping"; Snd "ping"; Rcv; Snd "ping"; Snd "ping"; Rcv;
   Snd "ping"].

Ltac split_ors :=
  repeat match goal with
    | H : _ \/ _ |- _ => destruct H
    | H : _ /\ _ |- _ => destruct H
    | H : False |- _ => contradiction
    end.

(** ** Scenario 1: one message, then closure *)

(** What the transport and the operator do in a schedule. *)
Definition environment (ls : list label) : list label :=
  filter (fun l => negb (is_rcv l || is_snd l)) ls.

(** Before the closure: the receiver against what the transport has
    delivered ([env]) and what the terminal has seen ([ops]). *)
Definition hello_at (s : state) (env : list label) (ops : list termop) : Prop :=
  closed s = None /\ latch s = false /\
  (spc s = S_loop \/ spc s = S_wait) /\
  match rpc s with
  | R_loop | R_recv =>
      (env = [] /\ inbox s = [] /\ ops = []) \/
      (env = [Deliver "hello"] /\ inbox s = ["hello"] /\ ops = []) \/
      (env = [Deliver "hello"] /\ inbox s = [] /\ ops = [PrintRecv "hello"])
  | R_acquire m | R_print m =>
      m = "hello" /\ env = [Deliver "hello"] /\ inbox s = [] /\ ops = []
  | R_release =>
      env = [Deliver "hello"] /\ inbox s = [] /\ ops = [PrintRecv "hello"]
  | _ => False
  end.

(** After a closure with reason [r] that finds the receiver in [recv] and the
    sender idle: both coroutines against the terminal ([ops]) and the number
    of steps each has taken ([nr], [ns]). *)
Definition closing_at (r : string) (s : state) (ops : list termop)
    (nr ns : nat) : Prop :=
  closed s = Some r /\ inbox s = [] /\
  match rpc s with
  | R_recv => ops = [] /\ nr = 0 /\ latch s = false
  | R_except r' => r' = r /\ ops = [] /\ nr = 1 /\ latch s = false
  | R_loop => ops = [PrintClosed r] /\ nr = 2 /\ latch s = false
  | R_require => ops = [PrintClosed r] /\ nr = 3 /\ latch s = false
  | R_done => ops = [PrintClosed r; PrintBackspaces] /\ nr = 4
  | _ => False
  end /\
  match spc s with
  | S_loop => ns = 0 \/ ns = 3
  | S_wait => ns = 0 /\ (rpc s = R_done -> latch s = true)
  | S_check => ns = 1 /\ rpc s = R_done
  | S_clear => ns = 2 /\ rpc s = R_done
  | S_done => ns = 1 \/ ns = 4
  | _ => False
  end.

(** The connection closes while the receiver is still handling hello. *)
Definition early_close_schedule : list label :=
  [Rcv; Deliver "hello"; Rcv; Close "peer disconnected";
   Rcv; Rcv; Rcv; Rcv; Rcv; Snd ""].

(** The connection closes once the receiver is back in [recv]. *)
Definition hello_schedule : list label :=
  [Rcv; Snd ""; Deliver "hello"; Rcv; Rcv; Rcv; Rcv; Rcv].
Definition closure_schedule : list label :=
  [Rcv; Rcv; Rcv; Rcv; Snd ""; Snd ""; Snd ""; Snd ""].

(** What [ping_schedule] does, and where it ends. *)
Definition ping_trace : list event :=
  [LoopTest Receiver true; LoopTest Sender true;
   Term Handler PrintBackspaces None; LatchSet Handler;
   Term Sender (ReadLine "ping") (Some Sender); Sent "ping"; LatchClear;
   Term Receiver (PrintRecv "hello") (Some Receiver); LoopTest Sender true].
Definition ping_final : state :=
  mkState None [] (Some Receiver) false R_release S_wait.

(** ** Further bookkeeping on runs *)

(** The inbound messages the transport has queued, in order. *)
Fixpoint delivered (ls : list label) : list string :=
  match ls with
  | [] => []
  | Deliver m :: ls' => m :: delivered ls'
  | _ :: ls' => delivered ls'
  end.

(** The inbound messages written to the terminal, in order. *)
Fixpoint printed (tr : list event) : list string :=
  match tr with
  | [] => []
  | Term _ (PrintRecv m) _ :: tr' => m :: printed tr'
  | _ :: tr' => printed tr'
  end.

(** The message the receiver has taken from the queue and not yet printed. *)
Definition in_hand (pc : rpc_t) : list string :=
  match pc with R_acquire m | R_print m => [m] | _ => [] end.

(** The lines the operator has entered at the prompt, in order. *)
Fixpoint lines_read (tr : list event) : list string :=
  match tr with
  | [] => []
  | Term _ (ReadLine l) _ :: tr' => l :: lines_read tr'
  | _ :: tr' => lines_read tr'
  end.

(** What may separate the lines read from the lines sent, by program point of
    the sender. *)
Definition unsent_at (s : state) (rest : list string) : Prop :=
  match spc s with
  | S_release l | S_send l => rest = [l]
  | S_loop => rest = [] \/ (is_open s = false /\ length rest <= 1)
  | S_except _ | S_done | S_failed _ => length rest <= 1
  | _ => rest = []
  end.

Definition is_notice_by (who : actor) (e : event) : bool :=
  match e with Term w (PrintClosed _) _ => actor_eqb w who | _ => false end.

(** How many closure notices a loop can have printed, by program point. *)
Definition receiver_notices_at (s : state) (n : nat) : Prop :=
  match rpc s with
  | R_loop => n = 0 \/ (n = 1 /\ is_open s = false)
  | R_require | R_done | R_failed _ => n <= 1
  | _ => n = 0
  end.
Definition sender_notices_at (s : state) (n : nat) : Prop :=
  match spc s with
  | S_loop => n = 0 \/ (n = 1 /\ is_open s = false)
  | S_done | S_failed _ => n <= 1
  | _ => n = 0
  end.

(** On a closed connection: the prompts the sender can still issue, and the
    queued messages the receiver can still print. *)
Definition prompts_left (s : state) : nat :=
  match spc s with S_acquire | S_input => 1 | _ => 0 end.
Definition prints_left (s : state) : nat :=
  match rpc s with
  | R_recv => match inbox s with [] => 0 | _ :: _ => 1 end
  | R_acquire _ | R_print _ => 1
  | _ => 0
  end.

(** On a closed connection: the steps each coroutine has left at most. *)
Definition receiver_rank (pc : rpc_t) : nat :=
  match pc with
  | R_recv => 6 | R_acquire _ => 5 | R_print _ => 4 | R_release => 3
  | R_except _ => 3 | R_loop => 2 | R_require => 1
  | R_done | R_failed _ => 0
  end.
Definition sender_rank (pc : spc_t) : nat :=
  match pc with
  | S_acquire => 6 | S_input => 5 | S_release _ => 4 | S_send _ => 3
  | S_except _ => 2 | S_loop => 1
  | S_wait => 4 | S_check => 3 | S_clear => 2
  | S_done | S_failed _ => 0
  end.
Definition rank (s : state) : nat := receiver_rank (rpc s) + sender_rank (spc s).

(** A sender parked in [wait] after the receiver has returned finds the event
    set. *)
Definition parked_ok (s : state) : Prop :=
  rpc s = R_done -> spc s = S_wait -> latch s = true.

(** Two messages arrive, Ctrl+C is pressed twice during one prompt cycle. *)
Definition busy_schedule : list label :=
  [Rcv; Deliver "a"; Deliver "b"; Sigint; Snd ""; Snd ""; Snd ""; Rcv; Rcv;
   Rcv; Rcv; Snd ""; Sigint; Snd "one"; Sigint; Snd ""; Snd ""; Snd ""].

(** What [busy_schedule] does, and where it ends. *)
Definition busy_trace : list event :=
  [LoopTest Receiver true; Term Handler PrintBackspaces None;
   LatchSet Handler; LoopTest Sender true;
   Term Receiver (PrintRecv "a") (Some Receiver);
   Term Handler PrintBackspaces (Some Sender); LatchSet Handler;
   Term Sender (ReadLine "one") (Some Sender);
   Term Handler PrintBackspaces (Some Sender); LatchSet Handler;
   Sent "one"; LatchClear].
Definition busy_final : state := mkState None ["b"] None false R_loop S_loop.
(** * Properties *)

(** ** Generic facts about runs *)

Lemma step_running l s ev s' :
  step l s = Some (ev, s') -> rptl_connection s = Running.
Proof. unfold step. destruct (rptl_connection s); [reflexivity|discriminate..]. Qed.

Lemma run_app ls1 ls2 s tr s' :
  run (ls1 ++ ls2) s = Some (tr, s') <->
  exists tr1 s1 tr2,
    run ls1 s = Some (tr1, s1) /\ run ls2 s1 = Some (tr2, s') /\ tr = tr1 ++ tr2.
Proof.
  revert s tr. induction ls1 as [|l ls1 IH]; intros s tr; cbn.
  - split.
    + intros H. exists [], s, tr. auto.
    + intros (tr1 & s1 & tr2 & H1 & H2 & ->). injection H1 as <- <-. exact H2.
  - destruct (step l s) as [[ev s0]|]; cbn.
    + split.
      * destruct (run (ls1 ++ ls2) s0) as [[tr0 s2]|] eqn:E; [|discriminate].
        intros H. injection H as <- <-.
        apply IH in E. destruct E as (tr1 & s1 & tr2 & H1 & H2 & ->).
        rewrite H1. exists (ev ++ tr1), s1, tr2. rewrite app_assoc. auto.
      * intros (tr1 & s1 & tr2 & H1 & H2 & ->).
        destruct (run ls1 s0) as [[tr0 s2]|] eqn:E; [|discriminate].
        injection H1 as <- <-.
        assert (E' : run (ls1 ++ ls2) s0 = Some (tr0 ++ tr2, s')).
        { apply IH. exists tr0, s2, tr2. auto. }
        rewrite E'. now rewrite app_assoc.
    + split; [discriminate|]. intros (tr1 & s1 & tr2 & H1 & _). discriminate.
Qed.

(** Induction along a run, from the left: a relation between the schedule so
    far, the trace so far and the current state that every transition
    preserves holds at the end. *)
Lemma run_ind (R : list label -> list event -> state -> Prop) s0 :
  R [] [] s0 ->
  (forall ls tr s l ev s',
      R ls tr s -> step l s = Some (ev, s') -> R (ls ++ [l]) (tr ++ ev) s') ->
  forall ls tr s', run ls s0 = Some (tr, s') -> R ls tr s'.
Proof.
  intros H0 Hstep.
  assert (G : forall ls pre_ls pre_tr s tr s',
             R pre_ls pre_tr s -> run ls s = Some (tr, s') ->
             R (pre_ls ++ ls) (pre_tr ++ tr) s').
  { induction ls as [|l ls IH]; intros pre_ls pre_tr s tr s' HR Hrun; cbn in Hrun.
    - injection Hrun as <- <-. now rewrite !app_nil_r.
    - destruct (step l s) as [[ev s1]|] eqn:E; [|discriminate].
      destruct (run ls s1) as [[tr1 s2]|] eqn:E1; [|discriminate].
      injection Hrun as <- <-.
      specialize (IH (pre_ls ++ [l]) (pre_tr ++ ev) s1 tr1 s2
                     (Hstep _ _ _ _ _ _ HR E) E1).
      now rewrite <- !app_assoc in IH. }
  intros ls tr s' Hrun. exact (G ls [] [] s0 tr s' H0 Hrun).
Qed.

Lemma inv_init : inv init.
Proof. repeat split; cbn; try discriminate; intros [H|H]; discriminate. Qed.

Lemma inv_step l s ev s' : inv s -> step l s = Some (ev, s') -> inv s'.
Proof.
  destruct s as [c i lk la r sp].
  intros (Hl & Hla & Hre & Hrd & Hse & Hsd) H.
  unfold lock_ok, latch_ok, is_open in *. cbn in *.
  step_cases H; unfold inv, lock_ok, latch_ok, is_open; cbn in *;
    repeat match goal with
      | x : Lock.t |- _ => destruct x as [[]|]; cbn in *; try discriminate
      end;
    repeat split; try discriminate; try congruence; auto;
    try (intros [?|?]; discriminate || auto; fail);
    try (intros ? [= <-]; auto; fail);
    try (intros ? Hx; first [apply Hre in Hx | apply Hse in Hx]; congruence);
    try (destruct (s_inflight sp); reflexivity);
    bool_crush.
Qed.

Lemma inv_run ls s tr s' : inv s -> run ls s = Some (tr, s') -> inv s'.
Proof.
  intros Hs Hrun.
  apply (run_ind (fun _ _ x => inv x) s Hs) with (ls := ls) (tr := tr); auto.
  intros; eapply inv_step; eauto.
Qed.

Lemma reachable_inv ls tr s : run ls init = Some (tr, s) -> inv s.
Proof. apply inv_run, inv_init. Qed.

(** ** Small facts about traces and schedules *)

Lemma events_of_app who tr1 tr2 :
  events_of who (tr1 ++ tr2) = events_of who tr1 ++ events_of who tr2.
Proof. apply filter_app. Qed.

Lemma count_app p tr1 tr2 : count p (tr1 ++ tr2) = count p tr1 + count p tr2.
Proof. unfold count. now rewrite filter_app, length_app. Qed.

Lemma sent_app tr1 tr2 : sent (tr1 ++ tr2) = sent tr1 ++ sent tr2.
Proof.
  induction tr1 as [|e tr1 IH]; cbn; [reflexivity|].
  destruct e; cbn; now rewrite IH.
Qed.

Lemma terminal_ops_app tr1 tr2 :
  terminal_ops (tr1 ++ tr2) = terminal_ops tr1 ++ terminal_ops tr2.
Proof.
  induction tr1 as [|e tr1 IH]; cbn; [reflexivity|].
  destruct e; cbn; now rewrite IH.
Qed.

Lemma occurrences_snoc p ls l :
  occurrences p (ls ++ [l]) = occurrences p ls + (if p l then 1 else 0).
Proof.
  unfold occurrences. rewrite filter_app, length_app. cbn.
  destruct (p l); reflexivity.
Qed.

Lemma without_snoc p ls l :
  without p (ls ++ [l]) = without p ls && negb (p l).
Proof. unfold without. rewrite forallb_app. cbn. now rewrite andb_true_r. Qed.

#[global] Hint Rewrite events_of_app map_app occurrences_snoc count_app
  sent_app terminal_ops_app without_snoc : trace.

(** ** How the loops wind down *)

Lemma step_not_crashed l s ev s' :
  step l s = Some (ev, s') -> is_fault l = false -> crashed s' = false.
Proof.
  destruct s as [c i lk la rp sp]. intros H Hl. unfold crashed.
  step_cases H; unfold rptl_connection in *; cbn in *; try discriminate;
    try (destruct rp; try discriminate; cbn in * );
    try (destruct sp; try discriminate); reflexivity.
Qed.

Lemma receiver_unwinding s r :
  crashed s = false -> rpc s = R_recv -> inbox s = [] -> closed s = Some r ->
  forall ls tr s',
    run ls s = Some (tr, s') -> without is_fault ls = true ->
    closed s' = Some r /\ inbox s' = [] /\ crashed s' = false /\
    receiver_unwinding_at r (rpc s')
      (map unheld (events_of Receiver tr)) (occurrences is_rcv ls) /\
    (rpc s' = R_done -> spc s' = S_wait -> latch s' = true).
Proof.
  intros Hc Hpc Hin Hcl.
  apply (run_ind (fun ls tr s' =>
    without is_fault ls = true ->
    closed s' = Some r /\ inbox s' = [] /\ crashed s' = false /\
    receiver_unwinding_at r (rpc s')
      (map unheld (events_of Receiver tr)) (occurrences is_rcv ls) /\
    (rpc s' = R_done -> spc s' = S_wait -> latch s' = true)) s).
  - intros _. rewrite Hpc. cbn. repeat split; auto. discriminate.
  - clear. intros ls tr s l ev s' IH H Hf.
    rewrite without_snoc in Hf. apply andb_true_iff in Hf. destruct Hf as [Hf Hl].
    specialize (IH Hf). destruct IH as (Hcl & Hin & _ & Hph & Hrel).
    apply negb_true_iff in Hl.
    pose proof (step_not_crashed _ _ _ _ H Hl) as Hc'.
    split; [|split; [|split; [exact Hc'|]]]; clear Hc';
      destruct s as [c i lk la rp sp]; cbn in *; subst c i;
      step_cases H; trace_simpl; cbn in *; try discriminate; phase_done.
Qed.

Lemma sender_unwinding s0 r line :
  crashed s0 = false -> spc s0 = S_send line -> closed s0 = Some r ->
  forall ls tr s',
    run ls s0 = Some (tr, s') -> without is_fault ls = true ->
    closed s' = Some r /\ crashed s' = false /\
    (latch s0 = true -> latch s' = true) /\
    sender_unwinding_at r (spc s')
      (map unheld (events_of Sender tr)) (occurrences is_snd ls).
Proof.
  intros Hc Hpc Hcl.
  apply (run_ind (fun ls tr s' =>
    without is_fault ls = true ->
    closed s' = Some r /\ crashed s' = false /\
    (latch s0 = true -> latch s' = true) /\
    sender_unwinding_at r (spc s')
      (map unheld (events_of Sender tr)) (occurrences is_snd ls)) s0).
  - intros _. rewrite Hpc. cbn. repeat split; auto.
  - clear Hc Hpc Hcl. intros ls tr s l ev s' IH H Hf.
    rewrite without_snoc in Hf. apply andb_true_iff in Hf. destruct Hf as [Hf Hl].
    specialize (IH Hf). destruct IH as (Hcl & _ & Hla & Hph).
    apply negb_true_iff in Hl.
    pose proof (step_not_crashed _ _ _ _ H Hl) as Hc'.
    split; [|split; [exact Hc'|]]; clear Hc';
      destruct s as [c i lk la rp sp]; cbn in *; subst c;
      step_cases H; trace_simpl; cbn in *; try discriminate; phase_done.
Qed.

Lemma sender_skipping s r :
  crashed s = false -> spc s = S_check -> closed s = Some r ->
  forall ls tr s',
    run ls s = Some (tr, s') -> without is_fault ls = true ->
    closed s' = Some r /\ crashed s' = false /\
    sender_skipping_at (spc s')
      (map unheld (events_of Sender tr)) (occurrences is_snd ls).
Proof.
  intros Hc Hpc Hcl.
  apply (run_ind (fun ls tr s' =>
    without is_fault ls = true ->
    closed s' = Some r /\ crashed s' = false /\
    sender_skipping_at (spc s')
      (map unheld (events_of Sender tr)) (occurrences is_snd ls)) s).
  - intros _. rewrite Hpc. cbn. repeat split; auto.
  - clear. intros ls tr s l ev s' IH H Hf.
    rewrite without_snoc in Hf. apply andb_true_iff in Hf. destruct Hf as [Hf Hl].
    specialize (IH Hf). destruct IH as (Hcl & _ & Hph).
    apply negb_true_iff in Hl.
    pose proof (step_not_crashed _ _ _ _ H Hl) as Hc'.
    split; [|split; [exact Hc'|]]; clear Hc';
      destruct s as [c i lk la rp sp]; cbn in *; subst c;
      step_cases H; trace_simpl; cbn in *; try discriminate; phase_done.
Qed.

Lemma running_unless_done s :
  crashed s = false -> rpc s <> R_done \/ spc s <> S_done ->
  rptl_connection s = Running.
Proof.
  unfold crashed, rptl_connection.
  destruct (rpc s), (spc s); intros Hc [H|H]; try discriminate;
    try reflexivity; congruence.
Qed.

(** Reading the actions of one actor off a whole trace. *)

Lemma in_unheld_events who op h tr :
  In (Term who op h) tr -> In (Term who op None) (map unheld (events_of who tr)).
Proof.
  intros Hin.
  apply (in_map unheld) with (x := Term who op h).
  apply filter_In. split; [exact Hin|].
  cbn. destruct who; reflexivity.
Qed.

Lemma in_clear_events tr :
  In LatchClear tr -> In LatchClear (map unheld (events_of Sender tr)).
Proof.
  intros Hin.
  apply (in_map unheld) with (x := LatchClear).
  apply filter_In. split; [exact Hin|reflexivity].
Qed.

Lemma in_looptest_events who b tr :
  In (LoopTest who b) tr -> In (LoopTest who b) (map unheld (events_of who tr)).
Proof.
  intros Hin.
  apply (in_map unheld) with (x := LoopTest who b).
  apply filter_In. split; [exact Hin|]. cbn. destruct who; reflexivity.
Qed.

Lemma sent_events tr : sent tr = sent (map unheld (events_of Sender tr)).
Proof.
  unfold events_of.
  induction tr as [|e tr IH]; cbn; [reflexivity|].
  destruct e as [[] op h| | [] | | [] b]; cbn; rewrite <- ?IH; reflexivity.
Qed.

Lemma count_events who p tr :
  (forall e, p (unheld e) = p e) ->
  (forall e, p e = true -> by_actor who e = true) ->
  count p tr = count p (map unheld (events_of who tr)).
Proof.
  intros Hu Hby. unfold count, events_of.
  induction tr as [|e tr IH]; cbn; [reflexivity|].
  destruct (p e) eqn:Ep.
  - rewrite (Hby e Ep). cbn. rewrite Hu, Ep. cbn. now rewrite IH.
  - destruct (by_actor who e); cbn; rewrite ?Hu, ?Ep; exact IH.
Qed.

Lemma count_latch_set_events who tr :
  count (is_latch_set who) tr =
  count (is_latch_set who) (map unheld (events_of who tr)).
Proof.
  apply count_events; intros [w op h| |w| |w b]; cbn; auto; discriminate.
Qed.

Lemma count_clear_events tr :
  count is_clear tr = count is_clear (map unheld (events_of Sender tr)).
Proof.
  apply count_events; intros [w op h| |w| |w b]; cbn; auto; discriminate.
Qed.

Lemma count_prompt_events tr :
  count is_prompt tr = count is_prompt (map unheld (events_of Sender tr)).
Proof.
  apply count_events; intros [[] [] h| |w| |w b]; cbn; auto; discriminate.
Qed.

Lemma count_looptest_events who tr :
  count (is_looptest who) tr =
  count (is_looptest who) (map unheld (events_of who tr)).
Proof.
  apply count_events; intros [w op h| |w| |w b]; cbn; auto; discriminate.
Qed.

(** ** C1: what the console lock protects *)

Lemma disciplined_step l s ev s' :
  inv s -> step l s = Some (ev, s') -> forallb disciplined ev = true.
Proof.
  destruct s as [c i lk la r sp].
  intros (Hl & _) H. unfold lock_ok in Hl. cbn in Hl.
  step_cases H; cbn; try reflexivity;
    repeat match goal with
      | x : Lock.t |- _ => destruct x as [[]|]; cbn in *; try discriminate
      end;
    bool_crush.
Qed.

(** C1, as stated, fails: the closure notice of the receiver is printed while
    nobody holds the console lock. *)
Lemma c1_notice_unprotected :
  exists tr s,
    run notice_schedule init = Some (tr, s) /\
    In (Term Receiver (PrintClosed "bye") None) tr /\
    forallb protected tr = false.
Proof.
  eexists. eexists. split; [reflexivity|]. split; [|reflexivity].
  cbn. auto.
Qed.

(** C1, amended: in every run, a received message is printed and a line of
    input is read by the holder of the console lock, while the closure notices
    and the backspaces of require_input are written by an actor that does not
    hold it; and the two coroutines are never both inside their
    [async with console_lock] blocks. *)
Theorem console_lock_discipline ls tr s :
  run ls init = Some (tr, s) ->
  (forall who op h, In (Term who op h) tr ->
     (guarded_op op = true -> h = Some who) /\
     (guarded_op op = false -> h <> Some who)) /\
  (r_holds (rpc s) && s_holds (spc s) = false) /\
  (lock s = Some Receiver <-> r_holds (rpc s) = true) /\
  (lock s = Some Sender <-> s_holds (spc s) = true).
Proof.
  intros Hrun.
  assert (HR : inv s /\ forallb disciplined tr = true).
  { apply (run_ind (fun _ tr s => inv s /\ forallb disciplined tr = true) init)
      with (ls := ls); auto.
    - split; [apply inv_init|reflexivity].
    - intros ls0 tr0 s0 l ev s1 [Hi Hd] Hs. split.
      + eapply inv_step; eauto.
      + rewrite forallb_app, Hd. eapply disciplined_step; eauto. }
  destruct HR as [(Hl & _) Hd]. split; [|].
  - intros who op h Hin.
    rewrite forallb_forall in Hd. specialize (Hd _ Hin). cbn in Hd.
    apply Bool.eqb_prop in Hd.
    destruct h as [a|]; cbn in Hd.
    + destruct a, who; cbn in Hd; rewrite <- Hd; split; congruence.
    + rewrite <- Hd; split; congruence.
  - unfold lock_ok in Hl.
    destruct (lock s) as [[]|], (r_holds (rpc s)), (s_holds (spc s));
      cbn in *; try discriminate; repeat split; congruence.
Qed.

(** The amended C1 at the run in which the receiver prints its closure
    notice. *)
Lemma console_lock_discipline_witness :
  r_holds R_loop && s_holds S_loop = false.
Proof.
  exact (proj1 (proj2 (console_lock_discipline notice_schedule _ _ eq_refl))).
Defined.

(** ** C10: require_input *)

(** C10: require_input, wherever it is called from (the SIGINT callback of
    line 63 or the receiver at line 53), writes the two backspaces and then
    sets the event, without touching the console lock, which the caller does
    not hold; and the event is never set in any other way. *)
Theorem require_input_writes_unprotected ls tr s l ev s' :
  run ls init = Some (tr, s) ->
  step l s = Some (ev, s') ->
  rendered PrintBackspaces =
    String (ascii_of_nat 8) (String (ascii_of_nat 8) EmptyString) /\
  (forall who,
      require_input who s =
      ([Term who PrintBackspaces (lock s); LatchSet who], set_latch true s)) /\
  (l = Sigint -> (ev, s') = require_input Handler s) /\
  (l = Rcv -> rpc s = R_require ->
     (ev, s') = (fst (require_input Receiver s),
                 set_rpc R_done (snd (require_input Receiver s)))) /\
  ((exists who, In (LatchSet who) ev) \/ (latch s = false /\ latch s' = true) ->
   exists who,
     (l = Sigint /\ who = Handler \/
      l = Rcv /\ rpc s = R_require /\ who = Receiver) /\
     ev = [Term who PrintBackspaces (lock s); LatchSet who] /\
     lock s <> Some who /\ lock s' = lock s /\ latch s' = true).
Proof.
  intros Hreach H.
  apply reachable_inv in Hreach. destruct Hreach as (Hl & _).
  split; [reflexivity|]. split; [reflexivity|].
  destruct s as [c i lk la r sp]. unfold lock_ok in Hl. cbn in Hl.
  step_cases H; cbn.
  all: (split; [ try discriminate; intros _; reflexivity | ]).
  all: (split; [ try discriminate; try (intros _ [=]; fail);
                 try (intros _ _; reflexivity) | ]).
  all: intros [[who Hin]|[H0 H1]]; cbn in *;
    try contradiction; try congruence;
    repeat match goal with
      | H : _ \/ _ |- _ => destruct H
      | H : False |- _ => contradiction
      | H : _ = LatchSet _ |- _ => discriminate H
      end.
  all: try (exists Handler; repeat split; auto;
            destruct lk as [[]|]; cbn in Hl; congruence).
  all: try (exists Receiver; repeat split; auto;
            destruct lk as [[]|]; cbn in Hl; congruence).
Qed.

(** C10 at the first Ctrl+C of a session. *)
Lemma require_input_writes_unprotected_witness :
  ([Term Handler PrintBackspaces None; LatchSet Handler], set_latch true init) =
  require_input Handler init.
Proof.
  exact (proj1 (proj2 (proj2
    (require_input_writes_unprotected [] [] init Sigint _ _ eq_refl eq_refl)))
    eq_refl).
Defined.

(** ** C3: the receiver on closure *)

(** C3: when [recv] raises ConnectionClosed with reason [r] (the connection is
    closed and nothing is queued), then, however the other actors are
    scheduled, the receiver prints the notice with [r], leaves its loop at the
    next test, calls require_input, which sets the event once, and returns;
    it is never blocked on the way, and a sender parked in [wait] can then
    proceed. *)
Theorem receiver_closure s r ls tr s' :
  crashed s = false -> rpc s = R_recv -> inbox s = [] -> closed s = Some r ->
  run ls s = Some (tr, s') -> without is_fault ls = true ->
  step Rcv s = Some ([], receiver_raise (ConnectionClosed r) s) /\
  prefix_of (map unheld (events_of Receiver tr))
    [notice Receiver r; LoopTest Receiver false;
     Term Receiver PrintBackspaces None; LatchSet Receiver] /\
  (rpc s' <> R_done -> exists ev s'', step Rcv s' = Some (ev, s'')) /\
  (4 <= occurrences is_rcv ls -> rpc s' = R_done) /\
  (rpc s' = R_done ->
   map unheld (events_of Receiver tr) =
     [notice Receiver r; LoopTest Receiver false;
      Term Receiver PrintBackspaces None; LatchSet Receiver] /\
   count (is_latch_set Receiver) tr = 1 /\
   (spc s' = S_wait ->
    latch s' = true /\
    forall typed, step (Snd typed) s' = Some ([], set_spc S_check s'))).
Proof.
  intros Hc Hpc Hin Hcl Hrun Hf.
  destruct (receiver_unwinding s r Hc Hpc Hin Hcl ls tr s' Hrun Hf)
    as (Hcl' & Hin' & Hc' & Hph & Hrel).
  split.
  { unfold step. rewrite (running_unless_done s Hc) by (left; congruence).
    unfold receive_messages_step. now rewrite Hpc, Hin, Hcl. }
  assert (Hen : rpc s' <> R_done -> exists ev s'', step Rcv s' = Some (ev, s'')).
  { intros Hnd. unfold step.
    rewrite (running_unless_done s' Hc') by (left; exact Hnd).
    unfold receive_messages_step, require_input.
    destruct (rpc s'); cbn in Hph; try contradiction; try congruence;
      rewrite ?Hin', ?Hcl'; eauto. }
  rewrite (count_latch_set_events Receiver tr).
  destruct (rpc s') eqn:Epc; cbn in Hph; try contradiction; split_hyps;
    subst;
    repeat match goal with H : _ = _ |- _ => rewrite H end.
  all: split; [eexists; cbn; reflexivity|].
  all: split; [exact Hen|].
  all: split; [try lia; auto|].
  all: try (intros; discriminate).
  intros _. split; [reflexivity|]. split; [reflexivity|].
  intros Hw. split; [auto|]. intros typed.
  unfold step. rewrite (running_unless_done s' Hc') by (right; congruence).
  unfold send_messages_step. rewrite Hw.
  rewrite (Hrel eq_refl Hw). reflexivity.
Qed.

(** C3 at the run in which the connection closes under a waiting receiver. *)
Lemma receiver_closure_witness :
  step Rcv (mkState (Some "bye") [] None false R_recv S_wait) =
  Some ([], receiver_raise (ConnectionClosed "bye")
              (mkState (Some "bye") [] None false R_recv S_wait)).
Proof.
  exact (proj1 (receiver_closure
    (mkState (Some "bye") [] None false R_recv S_wait) "bye"
    [Rcv; Rcv; Rcv; Rcv] _ _ eq_refl eq_refl eq_refl eq_refl eq_refl eq_refl)).
Defined.

(** ** C4: the sender on a closed connection *)



(** ** C9: the sender after a failed send *)

(** C9, as stated, fails: after a [send] that raised ConnectionClosed the
    sender does not go through another iteration (no [wait], no [clear]): the
    only thing it does besides printing the notice is the loop test, which
    fails, and it returns with the event still set. *)
Lemma c9_no_further_iteration :
  exists tr0 s0 tr s,
    run failed_send_prefix init = Some (tr0, s0) /\
    spc s0 = S_send "ping" /\ closed s0 = Some "gone" /\
    run failed_send_rest s0 = Some (tr, s) /\
    events_of Sender tr =
      [Term Sender (PrintClosed "gone") None; LoopTest Sender false] /\
    count (is_looptest Sender) tr = 1 /\
    count is_clear tr = 0 /\
    spc s = S_done /\ latch s = true.
Proof.
  do 4 eexists. split; [reflexivity|]. cbn.
  repeat split; reflexivity.
Qed.

(** C9, amended: in a reachable state whose sender is about to [send] on a
    closed connection, [send] raises ConnectionClosed; from there on, however
    the other actors are scheduled, the event stays set and is never cleared,
    the sender prints the notice, fails the loop test and returns, in three
    steps none of which can block, without entering the loop body again. *)
Theorem sender_after_failed_send ls0 tr0 s line r ls tr s' :
  run ls0 init = Some (tr0, s) ->
  crashed s = false -> spc s = S_send line -> closed s = Some r ->
  run ls s = Some (tr, s') -> without is_fault ls = true ->
  latch s = true /\
  (forall typed,
      step (Snd typed) s = Some ([], sender_raise (ConnectionClosed r) s)) /\
  latch s' = true /\
  count is_clear tr = 0 /\
  prefix_of (map unheld (events_of Sender tr))
    [notice Sender r; LoopTest Sender false] /\
  (forall b, In (LoopTest Sender b) tr -> b = false) /\
  spc s' <> S_wait /\
  (spc s' <> S_done ->
   forall typed, exists ev s'', step (Snd typed) s' = Some (ev, s'')) /\
  (3 <= occurrences is_snd ls -> spc s' = S_done) /\
  (spc s' = S_done ->
   map unheld (events_of Sender tr) = [notice Sender r; LoopTest Sender false]).
Proof.
  intros Hreach Hc Hpc Hcl Hrun Hf.
  assert (Hla : latch s = true).
  { apply reachable_inv in Hreach. destruct Hreach as (_ & Hla & _).
    unfold latch_ok in Hla. now rewrite Hpc in Hla. }
  destruct (sender_unwinding s r line Hc Hpc Hcl ls tr s' Hrun Hf)
    as (Hcl' & Hc' & Hla' & Hph).
  split; [exact Hla|].
  split.
  { intros typed. unfold step.
    rewrite (running_unless_done s Hc) by (right; congruence).
    unfold send_messages_step. now rewrite Hpc, Hcl. }
  split; [auto|].
  assert (Hen : spc s' <> S_done ->
                forall typed, exists ev s'', step (Snd typed) s' = Some (ev, s'')).
  { intros Hnd typed. unfold step.
    rewrite (running_unless_done s' Hc') by (right; exact Hnd).
    unfold send_messages_step.
    destruct (spc s'); cbn in Hph; try contradiction; try congruence;
      rewrite ?Hcl'; eauto. }
  assert (Hlt : forall b, In (LoopTest Sender b) tr ->
                In (LoopTest Sender b) (map unheld (events_of Sender tr))).
  { intros b. apply in_looptest_events. }
  rewrite (count_clear_events tr).
  destruct (spc s') eqn:Epc; cbn in Hph; try contradiction; split_hyps;
    subst;
    repeat match goal with H : _ = _ |- _ => rewrite H in * end.
  all: split; [reflexivity|].
  all: split; [eexists; cbn; reflexivity|].
  all: split; [intros b Hb; apply Hlt in Hb; cbn in Hb;
               repeat (destruct Hb as [Hb|Hb]; try discriminate Hb;
                       try (injection Hb as <-; reflexivity));
               try contradiction|].
  all: split; [discriminate|].
  all: split; [exact Hen|].
  all: split; [try lia; auto|].
  all: try (intros; discriminate).
  intros _. reflexivity.
Qed.

(** The amended C9 at the run of [c9_no_further_iteration]. *)
Lemma sender_after_failed_send_witness :
  latch (mkState (Some "gone") [] None true R_loop (S_send "ping")) = true.
Proof.
  exact (proj1 (sender_after_failed_send failed_send_prefix _ _ "ping" "gone"
    failed_send_rest _ _ eq_refl eq_refl eq_refl eq_refl eq_refl eq_refl)).
Defined.

(** ** C2: clearing the event *)

Lemma until_looptest_over a b :
  iteration_over a = true ->
  until_looptest (a ++ b) = until_looptest a /\ iteration_over (a ++ b) = true.
Proof.
  unfold iteration_over. induction a as [|e a IH]; cbn; [discriminate|].
  destruct (is_looptest Sender e); cbn; [auto|]. intros H.
  destruct (IH H) as [-> ->]. auto.
Qed.

Lemma until_looptest_pending a b :
  iteration_over a = false ->
  until_looptest (a ++ b) = a ++ until_looptest b /\
  iteration_over (a ++ b) = iteration_over b.
Proof.
  unfold iteration_over. induction a as [|e a IH]; cbn; [auto|].
  destruct (is_looptest Sender e); cbn; [discriminate|]. intros H.
  destruct (IH H) as [-> ->]. auto.
Qed.




(** ** C6: which exceptions the loops catch *)

Lemma fatal_stops s n : rptl_connection s = Fatal n -> forall l, step l s = None.
Proof. intros H l. unfold step. now rewrite H. Qed.

Lemma raise_dispatch s e :
  rptl_connection s = Running ->
  match e with
  | ConnectionClosed r =>
      rpc (receiver_raise e s) = R_except r /\
      spc (sender_raise e s) = S_except r /\
      rptl_connection (receiver_raise e s) = Running /\
      rptl_connection (sender_raise e s) = Running
  | OtherError n =>
      rptl_connection (receiver_raise e s) = Fatal n /\
      rptl_connection (sender_raise e s) = Fatal n
  end.
Proof.
  destruct s as [c i lk la rp sp].
  unfold rptl_connection, receiver_raise, sender_raise, unwind. cbn.
  intros Hrun.
  destruct e as [r|n], lk as [[]|]; cbn;
    destruct rp; try discriminate; destruct sp; try discriminate;
    repeat split; reflexivity.
Qed.

(** C6: the [except] clauses of both loops take ConnectionClosed and nothing
    else.  ConnectionClosed, which [recv] and [send] raise on a closed
    connection, is caught: the loop prints the closure notice (its second
    step after the failure), leaves at the next test and returns, never
    blocked on the way, without another [recv] or [send] and without ending
    the process abnormally; when it has returned it has printed exactly one
    notice.  Any other exception raised in a loop leaves the task failed,
    prints nothing, and asyncio.gather ends the process with it. *)
Theorem only_connection_closed_is_caught s :
  rptl_connection s = Running ->
  (forall e,
      match e with
      | ConnectionClosed r =>
          rpc (receiver_raise e s) = R_except r /\
          spc (sender_raise e s) = S_except r /\
          rptl_connection (receiver_raise e s) = Running /\
          rptl_connection (sender_raise e s) = Running
      | OtherError n =>
          rptl_connection (receiver_raise e s) = Fatal n /\
          rptl_connection (sender_raise e s) = Fatal n /\
          (forall l, step l (receiver_raise e s) = None) /\
          (forall l, step l (sender_raise e s) = None)
      end) /\
  (forall r ls tr s',
      rpc s = R_recv -> inbox s = [] -> closed s = Some r ->
      run ls s = Some (tr, s') -> without is_fault ls = true ->
      step Rcv s = Some ([], receiver_raise (ConnectionClosed r) s) /\
      prefix_of (map unheld (events_of Receiver tr))
        [notice Receiver r; LoopTest Receiver false;
         Term Receiver PrintBackspaces None; LatchSet Receiver] /\
      (1 <= occurrences is_rcv ls -> rpc s' <> R_recv) /\
      crashed s' = false /\
      (4 <= occurrences is_rcv ls -> rpc s' = R_done) /\
      (2 <= occurrences is_rcv ls ->
       exists rest,
         map unheld (events_of Receiver tr) = notice Receiver r :: rest) /\
      (rpc s' = R_done ->
       map unheld (events_of Receiver tr) =
         [notice Receiver r; LoopTest Receiver false;
          Term Receiver PrintBackspaces None; LatchSet Receiver]) /\
      (rpc s' <> R_done -> exists ev s'', step Rcv s' = Some (ev, s''))) /\
  (forall r line ls tr s',
      spc s = S_send line -> closed s = Some r ->
      run ls s = Some (tr, s') -> without is_fault ls = true ->
      (forall typed,
          step (Snd typed) s = Some ([], sender_raise (ConnectionClosed r) s)) /\
      prefix_of (map unheld (events_of Sender tr))
        [notice Sender r; LoopTest Sender false] /\
      (1 <= occurrences is_snd ls -> forall l, spc s' <> S_send l) /\
      sent tr = [] /\
      crashed s' = false /\
      (3 <= occurrences is_snd ls -> spc s' = S_done) /\
      (2 <= occurrences is_snd ls ->
       exists rest,
         map unheld (events_of Sender tr) = notice Sender r :: rest) /\
      (spc s' = S_done ->
       map unheld (events_of Sender tr) =
         [notice Sender r; LoopTest Sender false]) /\
      (spc s' <> S_done ->
       forall typed, exists ev s'', step (Snd typed) s' = Some (ev, s''))) /\
  (forall who n ev s',
      step (Fault who n) s = Some (ev, s') ->
      ev = [] /\
      (who = Receiver /\ s' = receiver_raise (OtherError n) s \/
       who = Sender /\ s' = sender_raise (OtherError n) s) /\
      rptl_connection s' = Fatal n /\
      (forall l, step l s' = None)).
Proof.
  intros Hrun.
  assert (Hc : crashed s = false) by (unfold crashed; now rewrite Hrun).
  split; [|split; [|split]].
  - intros [r|n].
    + exact (raise_dispatch s (ConnectionClosed r) Hrun).
    + destruct (raise_dispatch s (OtherError n) Hrun) as [H1 H2].
      split; [exact H1|]. split; [exact H2|].
      split; eapply fatal_stops; eauto.
  - intros r ls tr s' Hpc Hin Hcl Hr Hf.
    destruct (receiver_unwinding s r Hc Hpc Hin Hcl ls tr s' Hr Hf)
      as (Hcl' & Hin' & Hc' & Hph & _).
    split.
    { unfold step. rewrite Hrun. unfold receive_messages_step.
      now rewrite Hpc, Hin, Hcl. }
    assert (Hen : rpc s' <> R_done ->
                  exists ev s'', step Rcv s' = Some (ev, s'')).
    { intros Hnd. unfold step.
      rewrite (running_unless_done s' Hc') by (left; exact Hnd).
      unfold receive_messages_step, require_input.
      destruct (rpc s'); cbn in Hph; try contradiction; try congruence;
        rewrite ?Hin', ?Hcl'; eauto. }
    destruct (rpc s') eqn:Epc; cbn in Hph; try contradiction; split_hyps;
      subst;
      repeat match goal with H : _ = _ |- _ => rewrite H end.
    all: split; [eexists; cbn; reflexivity|].
    all: split; [try lia; try discriminate|].
    all: split; [reflexivity|].
    all: split; [try lia; auto|].
    all: split; [try lia; intros _; eexists; reflexivity|].
    all: split; [try (intros; discriminate); intros _; reflexivity|].
    all: exact Hen.
  - intros r line ls tr s' Hpc Hcl Hr Hf.
    destruct (sender_unwinding s r line Hc Hpc Hcl ls tr s' Hr Hf)
      as (Hcl' & Hc' & _ & Hph).
    split.
    { intros typed. unfold step. rewrite Hrun. unfold send_messages_step.
      now rewrite Hpc, Hcl. }
    assert (Hen : spc s' <> S_done ->
                  forall typed, exists ev s'',
                    step (Snd typed) s' = Some (ev, s'')).
    { intros Hnd typed. unfold step.
      rewrite (running_unless_done s' Hc') by (right; exact Hnd).
      unfold send_messages_step.
      destruct (spc s'); cbn in Hph; try contradiction; try congruence;
        rewrite ?Hcl'; eauto. }
    rewrite (sent_events tr).
    destruct (spc s') eqn:Epc; cbn in Hph; try contradiction; split_hyps;
      subst;
      repeat match goal with H : _ = _ |- _ => rewrite H end.
    all: split; [eexists; cbn; reflexivity|].
    all: split; [try lia; try discriminate|].
    all: split; [reflexivity|].
    all: split; [reflexivity|].
    all: split; [try lia; auto|].
    all: split; [try lia; intros _; eexists; reflexivity|].
    all: split; [try (intros; discriminate); intros _; reflexivity|].
    all: exact Hen.
  - intros who n ev s' H.
    unfold step in H. rewrite Hrun in H.
    destruct who; try discriminate.
    + destruct (in_loop_r (rpc s)); [|discriminate].
      injection H as <- <-.
      destruct (raise_dispatch s (OtherError n) Hrun) as [H1 H2].
      split; [reflexivity|]. split; [auto|]. split; [assumption|].
      eapply fatal_stops; eauto.
    + destruct (in_loop_s (spc s)); [|discriminate].
      injection H as <- <-.
      destruct (raise_dispatch s (OtherError n) Hrun) as [H1 H2].
      split; [reflexivity|]. split; [auto|]. split; [assumption|].
      eapply fatal_stops; eauto.
Qed.

(** C6 at the start of a session: an EOFError of [input] is fatal. *)
Lemma only_connection_closed_is_caught_witness :
  rptl_connection (sender_raise (OtherError "EOFError") init) = Fatal "EOFError".
Proof.
  exact (proj1 (proj2 (proj1 (only_connection_closed_is_caught init eq_refl)
                         (OtherError "EOFError")))).
Defined.

(** ** C5: several Ctrl+C, one prompt *)

Lemma prompts_ahead_step l s ev s' :
  inv s -> step l s = Some (ev, s') -> is_sigint l = false ->
  count is_prompt ev + prompts_ahead s' <= prompts_ahead s.
Proof.
  destruct s as [c i lk la rp sp].
  intros (_ & _ & _ & Hrd & _) H Hl.
  unfold prompts_ahead, is_open in *. cbn in *.
  step_cases H; cbn in *; try discriminate; try lia.
  all: try (destruct sp; cbn; try lia; destruct la; cbn; lia).
  all: try (destruct la; cbn; lia).
  all: try (destruct c; cbn; try lia; destruct sp; cbn; try lia;
            destruct la; cbn; lia).
  all: try (destruct sp; cbn; try lia; destruct c; cbn; try lia;
            destruct la; cbn; lia).
  all: try (assert (Hx : true = false) by (apply Hrd; auto); discriminate).
  all: destruct c; [|discriminate Hrd; auto]; destruct sp; cbn; lia.
Qed.

Lemma prompts_ahead_run s ls tr s' :
  inv s -> run ls s = Some (tr, s') -> without is_sigint ls = true ->
  count is_prompt tr + prompts_ahead s' <= prompts_ahead s.
Proof.
  intros Hi Hrun Hw.
  assert (G : without is_sigint ls = true ->
              inv s' /\ count is_prompt tr + prompts_ahead s' <= prompts_ahead s).
  { apply (run_ind (fun ls tr s' =>
      without is_sigint ls = true ->
      inv s' /\ count is_prompt tr + prompts_ahead s' <= prompts_ahead s) s);
      [ | | exact Hrun ].
    - intros _. split; [exact Hi|cbn; lia].
    - clear - Hi. intros ls tr s1 l ev s2 IH H Hw.
      rewrite without_snoc in Hw. apply andb_true_iff in Hw.
      destruct Hw as [Hw Hl]. apply negb_true_iff in Hl.
      destruct (IH Hw) as [Hi1 Hle]. split.
      + eapply inv_step; eauto.
      + rewrite count_app.
        pose proof (prompts_ahead_step _ _ _ _ Hi1 H Hl). lia. }
  apply G, Hw.
Qed.

Lemma prompts_ahead_le_1 s : prompts_ahead s <= 1.
Proof.
  unfold prompts_ahead.
  destruct (spc s); try lia;
    try (destruct (is_open s); cbn; try lia; destruct (latch s); cbn; lia).
Qed.

Lemma step_sigint s :
  rptl_connection s = Running ->
  step Sigint s =
  Some ([Term Handler PrintBackspaces (lock s); LatchSet Handler],
        set_latch true s).
Proof. intros H. unfold step. now rewrite H. Qed.

Lemma sigint_burst n s :
  rptl_connection s = Running ->
  exists tr,
    run (repeat Sigint (S n)) s = Some (tr, snd (require_input Handler s)) /\
    count (is_latch_set Handler) tr = S n /\
    count is_prompt tr = 0.
Proof.
  revert s. induction n as [|n IH]; intros s Hrun.
  - cbn [repeat run]. rewrite (step_sigint s Hrun).
    eexists. split; [reflexivity|]. split; reflexivity.
  - assert (Hrun' : rptl_connection (set_latch true s) = Running) by exact Hrun.
    destruct (IH _ Hrun') as (tr & Htr & Hn & Hp).
    change (repeat Sigint (S (S n))) with (Sigint :: repeat Sigint (S n)).
    cbn [run]. rewrite (step_sigint s Hrun), Htr.
    eexists. split; [reflexivity|].
    rewrite !count_app, Hn, Hp. split; reflexivity.
Qed.

(** C5: [set] is idempotent, so N >= 1 Ctrl+C in a row leave the program in
    the state one Ctrl+C leaves it in (only the terminal has seen N times two
    backspaces); and however N >= 1 Ctrl+C are spread over a run, the sender
    issues at most one prompt after the last of them. *)
Theorem at_most_one_pending_prompt N ls1 tr1 s1 ls2 tr2 s2 :
  1 <= N -> occurrences is_sigint ls1 = N ->
  run ls1 init = Some (tr1, s1) ->
  without is_sigint ls2 = true ->
  run ls2 s1 = Some (tr2, s2) ->
  (forall e, Event.set (Event.set e) = Event.set e) /\
  (forall s, rptl_connection s = Running ->
     exists tr,
       run (repeat Sigint N) s = Some (tr, snd (require_input Handler s)) /\
       count (is_latch_set Handler) tr = N /\ count is_prompt tr = 0) /\
  count is_prompt tr2 <= 1.
Proof.
  intros HN Hocc Hr1 Hw Hr2.
  split; [reflexivity|]. split.
  - intros s Hrun. destruct N as [|n]; [lia|]. apply sigint_burst, Hrun.
  - pose proof (prompts_ahead_run s1 ls2 tr2 s2 (reachable_inv _ _ _ Hr1) Hr2 Hw).
    pose proof (prompts_ahead_le_1 s1). lia.
Qed.

(** C5 at three Ctrl+C before the sender gets to run. *)
Lemma at_most_one_pending_prompt_witness :
  count is_prompt
    [LoopTest Sender true; Term Sender (ReadLine "ping") (Some Sender);
     Sent "ping"; LatchClear; LoopTest Sender true] <= 1.
Proof.
  exact (proj2 (proj2 (at_most_one_pending_prompt 3
    burst_schedule _ _ after_burst_schedule _ _
    (le_S _ _ (le_S _ _ (le_n 1))) eq_refl eq_refl eq_refl eq_refl))).
Defined.

(** ** C7: scenario 2 *)

Lemma ping_cycle ls tr s :
  run ls init = Some (tr, s) ->
  occurrences is_sigint ls <= 1 ->
  without is_close ls = true -> without is_fault ls = true ->
  (forall typed, In (Snd typed) ls -> typed = "ping") ->
  ping_cycle_at s (occurrences is_sigint ls) (sent tr)
    (count is_prompt tr) (count is_clear tr) (occurrences is_snd ls).
Proof.
  intros Hrun.
  enough (G : inv s /\
    (occurrences is_sigint ls <= 1 ->
     without is_close ls = true -> without is_fault ls = true ->
     (forall typed, In (Snd typed) ls -> typed = "ping") ->
     ping_cycle_at s (occurrences is_sigint ls) (sent tr)
       (count is_prompt tr) (count is_clear tr) (occurrences is_snd ls)))
    by apply G.
  apply (run_ind (fun ls tr s =>
    inv s /\
    (occurrences is_sigint ls <= 1 ->
     without is_close ls = true -> without is_fault ls = true ->
     (forall typed, In (Snd typed) ls -> typed = "ping") ->
     ping_cycle_at s (occurrences is_sigint ls) (sent tr)
       (count is_prompt tr) (count is_clear tr) (occurrences is_snd ls)))
    init); [ | | exact Hrun ].
  - split; [apply inv_init|]. intros _ _ _ _. cbn. split; [reflexivity|].
    left. repeat split; reflexivity.
  - clear. intros ls0 tr0 s0 l ev s1 [Hi IH] H.
    split; [eapply inv_step; eauto|]. intros Hk Hc Hf Ht.
    rewrite occurrences_snoc in Hk.
    rewrite without_snoc in Hc, Hf.
    apply andb_true_iff in Hc, Hf. destruct Hc as [Hc Hlc], Hf as [Hf Hlf].
    apply negb_true_iff in Hlc, Hlf.
    assert (Ht0 : forall typed, In (Snd typed) ls0 -> typed = "ping").
    { intros typed Hin. apply Ht, in_or_app. now left. }
    assert (Htl : forall typed, l = Snd typed -> typed = "ping").
    { intros typed ->. apply Ht, in_or_app. right. now left. }
    assert (Hk0 : occurrences is_sigint ls0 <= 1) by lia.
    specialize (IH Hk0 Hc Hf Ht0). clear Ht Ht0 Hc Hf Hk0.
    rewrite !occurrences_snoc, sent_app, !count_app.
    destruct Hi as (_ & _ & _ & Hrd & _).
    destruct s0 as [c i lk la rp sp].
    unfold ping_cycle_at, is_open in *. cbn in IH, Hrd.
    destruct IH as [Ho IH]. destruct c; [discriminate|]. clear Ho.
    step_cases H; cbn in *; try discriminate; try contradiction;
      try (specialize (Htl _ eq_refl); subst);
      try (assert (Hx : true = false) by (apply Hrd; auto); discriminate Hx);
      rewrite ?app_nil_r, ?Nat.add_0_r;
      (split; [reflexivity|]);
      try (is_var sp; destruct sp; try contradiction);
      split_ors; subst; try discriminate; try lia;
      repeat match goal with H : _ = _ |- _ => rewrite H end;
      cbn;
      try (repeat split; auto; lia);
      first [ left; repeat split; auto; lia
            | right; left; repeat split; auto; lia
            | right; right; repeat split; auto; lia
            | idtac ].
Qed.

Lemma run_not_crashed s ls tr s' :
  crashed s = false -> run ls s = Some (tr, s') -> without is_fault ls = true ->
  crashed s' = false.
Proof.
  intros Hc Hrun.
  apply (run_ind (fun ls _ s' =>
    without is_fault ls = true -> crashed s' = false) s) with (tr := tr);
    [ | | exact Hrun ].
  - intros _. exact Hc.
  - intros ls0 _ s0 l ev s1 _ H Hf.
    rewrite without_snoc in Hf. apply andb_true_iff in Hf. destruct Hf as [_ Hl].
    apply negb_true_iff in Hl. eapply step_not_crashed; eauto.
Qed.

(** C7: in a run with exactly one Ctrl+C in which the connection stays open
    and the operator types ping at the prompt, however the receiver and the
    sender are scheduled: ping is sent at most once and there is at most one
    prompt; until the sender clears the event, the event is set (once Ctrl+C
    has come) and the sender can move, unless it waits for the console lock
    while the receiver holds it, and then the receiver can move; the seventh
    step of the sender pushes ping, its eighth clears the event, and it takes
    at most nine; and once the sender has cleared the event, ping has been
    sent exactly once, after exactly one prompt, and the event is inactive. *)
Theorem ping_sent_once ls tr s :
  run ls init = Some (tr, s) ->
  occurrences is_sigint ls = 1 ->
  without is_close ls = true -> without is_fault ls = true ->
  (forall typed, In (Snd typed) ls -> typed = "ping") ->
  (sent tr = [] \/ sent tr = ["ping"]) /\
  count is_prompt tr <= 1 /\
  (count is_clear tr = 0 ->
   latch s = true /\
   exists l ev s', (l = Rcv \/ l = Snd "ping") /\ step l s = Some (ev, s')) /\
  (1 <= count is_clear tr ->
   sent tr = ["ping"] /\ count is_prompt tr = 1 /\ count is_clear tr = 1 /\
   latch s = false) /\
  (count is_clear tr = 0 ->
   (exists ev s', step (Snd "ping") s = Some (ev, s')) \/
   (spc s = S_acquire /\ lock s = Some Receiver /\
    exists ev s', step Rcv s = Some (ev, s'))) /\
  (occurrences is_snd ls < 7 -> sent tr = []) /\
  (7 <= occurrences is_snd ls -> sent tr = ["ping"]) /\
  (8 <= occurrences is_snd ls ->
   count is_prompt tr = 1 /\ count is_clear tr = 1 /\ latch s = false) /\
  occurrences is_snd ls <= 9.
Proof.
  intros Hrun Hk Hc Hf Ht.
  assert (Hk' : occurrences is_sigint ls <= 1) by lia.
  pose proof (ping_cycle ls tr s Hrun Hk' Hc Hf Ht) as [Ho Hph].
  pose proof (run_not_crashed init ls tr s eq_refl Hrun Hf) as Hcr.
  pose proof (reachable_inv _ _ _ Hrun) as (Hl & _).
  rewrite Hk in Hph.
  assert (Hprog : count is_clear tr = 0 ->
    (exists ev s', step (Snd "ping") s = Some (ev, s')) \/
    (spc s = S_acquire /\ lock s = Some Receiver /\
     exists ev s', step Rcv s = Some (ev, s'))).
  { intros H0.
    assert (Hr : rptl_connection s = Running).
    { apply running_unless_done; [exact Hcr|]. right.
      destruct (spc s); try contradiction; discriminate. }
    assert (Hcl : closed s = None).
    { unfold is_open in Ho. destruct (closed s); [discriminate|reflexivity]. }
    unfold step. rewrite Hr.
    unfold send_messages_step, receive_messages_step, lock_ok in *.
    unfold Lock.acquire, Event.is_set, is_open.
    destruct (spc s) eqn:Es; try contradiction; split_ors; try lia; subst;
      try (left; do 2 eexists; cbn;
           repeat match goal with H : _ = _ |- _ => rewrite H end;
           reflexivity).
    all: destruct (lock s) as [[]|] eqn:El; cbn in Hl; try discriminate;
      try (left; do 2 eexists; cbn; reflexivity).
    all: right; split; [reflexivity|]; split; [reflexivity|];
      destruct (rpc s) eqn:Er; cbn in Hl; try discriminate;
      do 2 eexists; cbn; reflexivity. }
  split; [|split; [|split; [|split; [|split; [exact Hprog|]]]]].
  - destruct (spc s); try contradiction; split_ors; auto.
  - destruct (spc s); try contradiction; split_ors; lia.
  - intros H0. split.
    + destruct (spc s); try contradiction; split_ors; auto; try lia.
    + destruct (Hprog H0) as [(ev & s' & H)|(_ & _ & ev & s' & H)].
      * exists (Snd "ping"), ev, s'. auto.
      * exists Rcv, ev, s'. auto.
  - intros H1.
    destruct (spc s); try contradiction; split_ors; try lia; subst; auto.
  - destruct (spc s); try contradiction; split_ors; subst;
      repeat split; intros; try lia; auto.
Qed.

(** C7 at a run in which a message arrives while the operator types. *)
Lemma ping_sent_once_witness :
  run ping_schedule init = Some (ping_trace, ping_final) /\
  sent ping_trace = ["ping"] /\ count is_prompt ping_trace = 1 /\
  count is_clear ping_trace = 1 /\ latch ping_final = false.
Proof.
  split; [reflexivity|].
  refine (proj1 (proj2 (proj2 (proj2
    (ping_sent_once ping_schedule ping_trace ping_final
       eq_refl eq_refl eq_refl eq_refl _)))) (le_n 1)).
  intros typed Hin. cbn in Hin.
  repeat (destruct Hin as [Hin|Hin];
          [ try discriminate Hin; injection Hin as <-; reflexivity | ]).
  contradiction.
Defined.

(** ** C8: scenario 1 *)

Lemma environment_snoc ls l :
  environment (ls ++ [l]) =
  environment ls ++ (if is_rcv l || is_snd l then [] else [l]).
Proof.
  unfold environment. rewrite filter_app. cbn.
  destruct (is_rcv l || is_snd l); reflexivity.
Qed.

Lemma schedule_length ls :
  length ls =
  occurrences is_rcv ls + occurrences is_snd ls + length (environment ls).
Proof.
  unfold occurrences, environment.
  induction ls as [|l ls IH]; cbn; [reflexivity|].
  destruct l; cbn; lia.
Qed.

Lemma environment_hello ls l :
  environment (ls ++ [l]) = [] \/ environment (ls ++ [l]) = [Deliver "hello"] ->
  (is_rcv l || is_snd l = true /\ environment (ls ++ [l]) = environment ls) \/
  (l = Deliver "hello" /\ environment ls = [] /\
   environment (ls ++ [l]) = [Deliver "hello"]).
Proof.
  rewrite environment_snoc.
  destruct (is_rcv l || is_snd l) eqn:E.
  - rewrite app_nil_r. auto.
  - intros [H|H].
    + apply app_eq_nil in H. destruct H. discriminate.
    + right. destruct (environment ls) as [|x [|y xs]]; try discriminate.
      cbn in H. injection H as ->. auto.
Qed.

Lemma hello_delivered ls tr s :
  run ls init = Some (tr, s) ->
  environment ls = [] \/ environment ls = [Deliver "hello"] ->
  hello_at s (environment ls) (terminal_ops tr).
Proof.
  intros Hrun.
  enough (G : inv s /\
    (environment ls = [] \/ environment ls = [Deliver "hello"] ->
     hello_at s (environment ls) (terminal_ops tr))) by apply G.
  apply (run_ind (fun ls tr s =>
    inv s /\
    (environment ls = [] \/ environment ls = [Deliver "hello"] ->
     hello_at s (environment ls) (terminal_ops tr))) init); [ | | exact Hrun ].
  - split; [apply inv_init|]. intros _. unfold hello_at. cbn.
    repeat split; auto.
  - clear. intros ls tr s l ev s' [Hi IH] H.
    split; [eapply inv_step; eauto|].
    rewrite terminal_ops_app. intros He.
    destruct (environment_hello ls l He) as [[Hq ->]|(-> & He0 & ->)].
    + assert (He0 : environment ls = [] \/ environment ls = [Deliver "hello"]).
      { rewrite environment_snoc, Hq, app_nil_r in He. exact He. }
      specialize (IH He0). clear He He0.
      destruct Hi as (Hl & _).
      destruct s as [c i lk la rp sp].
      unfold hello_at, lock_ok in *. cbn in IH, Hl.
      destruct IH as (-> & -> & Hsp & IH).
      destruct l; try discriminate Hq; clear Hq;
        step_cases H; cbn in *; rewrite ?app_nil_r; try contradiction;
        try (destruct Hsp; discriminate);
        repeat split; auto;
        split_ors; subst; try discriminate; cbn; try congruence; auto 7;
        repeat match goal with H : _ = _ |- _ => rewrite H end;
        cbn; auto 7.
    + specialize (IH (or_introl He0)). rewrite He0 in IH.
      destruct s as [c i lk la rp sp].
      unfold hello_at in *. cbn in IH.
      destruct IH as (-> & -> & Hsp & IH).
      step_cases H; cbn in *; rewrite ?app_nil_r.
      repeat split; auto.
      destruct rp; try contradiction; split_ors; subst; try discriminate;
        cbn; auto 7.
Qed.

Lemma without_fault_environment ls :
  without is_fault ls = without is_fault (environment ls).
Proof.
  unfold without, environment.
  induction ls as [|l ls IH]; cbn; [reflexivity|].
  destruct l; cbn; rewrite ?IH; reflexivity.
Qed.

Lemma environment_quiet ls l :
  environment (ls ++ [l]) = [] ->
  environment ls = [] /\ (l = Rcv \/ exists typed, l = Snd typed).
Proof.
  rewrite environment_snoc. intros H. apply app_eq_nil in H.
  destruct H as [H1 H2]. split; [exact H1|].
  destruct l; cbn in H2; try discriminate; eauto.
Qed.

Lemma closing r s0 :
  crashed s0 = false -> closing_at r s0 [] 0 0 ->
  forall ls tr s',
    run ls s0 = Some (tr, s') -> environment ls = [] ->
    closing_at r s' (terminal_ops tr)
      (occurrences is_rcv ls) (occurrences is_snd ls) /\
    crashed s' = false.
Proof.
  intros Hc H0 ls tr s' Hrun.
  apply (run_ind (fun ls tr s' =>
    environment ls = [] ->
    closing_at r s' (terminal_ops tr)
      (occurrences is_rcv ls) (occurrences is_snd ls) /\
    crashed s' = false) s0); [ | | exact Hrun ].
  - intros _. split; assumption.
  - clear. intros ls tr s l ev s' IH H He.
    apply environment_quiet in He. destruct He as [He Hl].
    destruct (IH He) as [Hph _]. clear IH He.
    split.
    2:{ eapply step_not_crashed; eauto.
        destruct Hl as [->|[typed ->]]; reflexivity. }
    rewrite terminal_ops_app, !occurrences_snoc.
    destruct s as [c i lk la rp sp].
    unfold closing_at in *. cbn in Hph.
    destruct Hph as (-> & -> & Hr & Hs).
    destruct Hl as [->|[typed ->]];
      step_cases H; cbn in *; rewrite ?app_nil_r, ?Nat.add_0_r;
      try contradiction;
      repeat split; auto;
      try (is_var sp; destruct sp; try contradiction);
      try (is_var rp; destruct rp; try contradiction);
      split_ors; subst; try discriminate; cbn; try congruence; try lia;
      repeat match goal with H : _ = _ |- _ => rewrite H end;
      cbn; auto; try lia;
      repeat split; auto; try lia; try (intros; discriminate).
Qed.

(** C8, as stated, fails: the channel delivers hello and then closes with
    reason peer disconnected, before the receiver is back at its loop test;
    the receiver prints hello, finds the connection closed at the test and
    leaves the loop without ever printing a closure notice; both loops stop. *)
Lemma c8_no_notice_on_early_close :
  exists tr s,
    run early_close_schedule init = Some (tr, s) /\
    environment early_close_schedule =
      [Deliver "hello"; Close "peer disconnected"] /\
    rptl_connection s = Exited /\
    terminal_ops tr = [PrintRecv "hello"; PrintBackspaces] /\
    count is_notice tr = 0.
Proof. do 2 eexists. split; [reflexivity|]. cbn. auto. Qed.

(** C8, amended: if the channel delivers hello and closes with reason
    peer disconnected while the receiver is waiting in [recv] with nothing
    queued, then hello has been printed, and, however the two coroutines are
    scheduled afterwards, the terminal gets the closure notice with the
    reason and then the backspaces of require_input; as long as a loop is
    still running some coroutine can move, at most eight steps are taken in
    all, and when both loops have stopped the process exits with the output
    Recv: hello, the notice, and the backspaces. *)
Theorem hello_then_closure ls1 tr1 s1 ls2 tr2 s2 :
  run ls1 init = Some (tr1, s1) ->
  environment ls1 = [Deliver "hello"] ->
  rpc s1 = R_recv -> inbox s1 = [] ->
  run (Close "peer disconnected" :: ls2) s1 = Some (tr2, s2) ->
  environment ls2 = [] ->
  terminal_ops tr1 = [PrintRecv "hello"] /\
  prefix_of (terminal_ops tr2)
    [PrintClosed "peer disconnected"; PrintBackspaces] /\
  length ls2 <= 8 /\
  (finished s2 = false ->
   exists l ev s', (l = Rcv \/ l = Snd "") /\ step l s2 = Some (ev, s')) /\
  (finished s2 = true ->
   rptl_connection s2 = Exited /\
   terminal_output (tr1 ++ tr2) =
     ("Recv: hello" ++ nl ++
      "Connection was closed: peer disconnected" ++ nl ++ backspaces)%string).
Proof.
  intros Hr1 He1 Hpc Hin Hr2 He2.
  pose proof (hello_delivered ls1 tr1 s1 Hr1 (or_intror He1)) as Hh.
  pose proof (reachable_inv _ _ _ Hr1) as (Hl & _).
  assert (Hc1 : crashed s1 = false).
  { apply (run_not_crashed init ls1 tr1 s1 eq_refl Hr1).
    rewrite without_fault_environment, He1. reflexivity. }
  unfold hello_at in Hh. rewrite Hpc, He1, Hin in Hh.
  destruct Hh as (Hcl & Hla & Hsp & Hh).
  assert (Hops : terminal_ops tr1 = [PrintRecv "hello"]).
  { destruct Hh as [(H & _)|[(_ & H & _)|(_ & _ & H)]];
      try discriminate; exact H. }
  clear Hh.
  assert (Hrun1 : rptl_connection s1 = Running).
  { apply running_unless_done; [exact Hc1|]. left. congruence. }
  cbn [run] in Hr2. unfold step in Hr2. rewrite Hrun1 in Hr2.
  unfold is_open in Hr2. rewrite Hcl in Hr2.
  destruct (run ls2 (set_closed (Some "peer disconnected") s1))
    as [[tr s]|] eqn:Hr; [|discriminate].
  injection Hr2 as <- <-. cbn [app].
  assert (H0 : closing_at "peer disconnected"
                 (set_closed (Some "peer disconnected") s1) [] 0 0).
  { unfold closing_at. cbn. rewrite Hpc, Hin, Hla.
    repeat split; auto.
    destruct Hsp as [-> | ->]; auto. split; [reflexivity|discriminate]. }
  assert (Hc0 : crashed (set_closed (Some "peer disconnected") s1) = false)
    by exact Hc1.
  destruct (closing _ _ Hc0 H0 ls2 tr s Hr He2) as [Hph Hc].
  pose proof (schedule_length ls2) as Hlen. rewrite He2 in Hlen. cbn in Hlen.
  unfold closing_at in Hph. destruct Hph as (Hcl' & Hin' & Hrp & Hsp').
  split; [exact Hops|].
  split.
  { destruct (rpc s); try contradiction; split_hyps;
      repeat match goal with H : _ = _ |- _ => rewrite H end;
      eexists; cbn; reflexivity. }
  split.
  { destruct (rpc s); try contradiction; destruct (spc s); try contradiction;
      split_ors; lia. }
  split.
  - intros Hfin.
    destruct (rpc s) eqn:Er; try contradiction.
    5:{ destruct (spc s) eqn:Es; try contradiction.
        5:{ unfold finished, rptl_connection in Hfin.
            rewrite Er, Es in Hfin. discriminate. }
        all: exists (Snd ""); do 2 eexists; split; [now right|];
          unfold step; rewrite (running_unless_done s Hc)
            by (right; congruence);
          unfold send_messages_step, Event.is_set; rewrite Es;
          try reflexivity.
        destruct Hsp' as [_ Hla']. rewrite (Hla' eq_refl). reflexivity. }
    all: exists Rcv; do 2 eexists; split; [now left|];
      unfold step; rewrite (running_unless_done s Hc) by (left; congruence);
      unfold receive_messages_step, require_input; rewrite Er, ?Hin', ?Hcl';
      reflexivity.
  - intros Hfin.
    assert (Hex : rptl_connection s = Exited).
    { unfold finished in Hfin. destruct (rptl_connection s); congruence. }
    split; [exact Hex|].
    unfold terminal_output. rewrite terminal_ops_app, Hops.
    unfold rptl_connection in Hex.
    destruct (rpc s); try contradiction; try discriminate;
      try (destruct (spc s); discriminate).
    destruct Hrp as [-> _]. reflexivity.
Qed.

(** The amended C8 at the run in which the receiver is back in [recv] when the
    connection closes. *)
Lemma hello_then_closure_witness :
  terminal_ops
    [LoopTest Receiver true; LoopTest Sender true;
     Term Receiver (PrintRecv "hello") (Some Receiver);
     LoopTest Receiver true] = [PrintRecv "hello"].
Proof.
  exact (proj1 (hello_then_closure hello_schedule _ _ closure_schedule _ _
    eq_refl eq_refl eq_refl eq_refl eq_refl eq_refl)).
Defined.

(** * Further properties of the client *)

Lemma delivered_app ls1 ls2 : delivered (ls1 ++ ls2) = delivered ls1 ++ delivered ls2.
Proof.
  induction ls1 as [|l ls1 IH]; cbn; [reflexivity|].
  destruct l; cbn; now rewrite ?IH.
Qed.

Lemma printed_app tr1 tr2 : printed (tr1 ++ tr2) = printed tr1 ++ printed tr2.
Proof.
  induction tr1 as [|e tr1 IH]; cbn; [reflexivity|].
  destruct e as [w [] h| | | |]; cbn; now rewrite ?IH.
Qed.

Lemma lines_read_app tr1 tr2 :
  lines_read (tr1 ++ tr2) = lines_read tr1 ++ lines_read tr2.
Proof.
  induction tr1 as [|e tr1 IH]; cbn; [reflexivity|].
  destruct e as [w [] h| | | |]; cbn; now rewrite ?IH.
Qed.

Lemma received_accounting ls tr s :
  run ls init = Some (tr, s) ->
  exists hand,
    printed tr ++ hand ++ inbox s = delivered ls /\
    (crashed s = false -> hand = in_hand (rpc s)).
Proof.
  apply (run_ind (fun ls tr s =>
    exists hand,
      printed tr ++ hand ++ inbox s = delivered ls /\
      (crashed s = false -> hand = in_hand (rpc s))) init).
  - exists []. split; reflexivity.
  - intros ls0 tr0 s0 l ev s1 (hand & Heq & Hh) H.
    rewrite delivered_app, printed_app, <- Heq.
    assert (Hc0 : crashed s0 = false).
    { unfold crashed. now rewrite (step_running _ _ _ _ H). }
    specialize (Hh Hc0). subst hand. clear Heq.
    destruct s0 as [c i lk la rp sp]. cbn in *.
    step_cases H; cbn; rewrite ?app_nil_r.
    all: first
      [ exists (in_hand rp); split;
        [ rewrite <- ?app_assoc; reflexivity
        | intros Hx; first [ reflexivity | discriminate Hx ] ]
      | exists []; split;
        [ cbn; rewrite ?app_nil_r, <- ?app_assoc; reflexivity
        | intros Hx; first [ reflexivity | discriminate Hx ] ]
      | match goal with
        | |- exists _, _ ++ _ ++ _ = _ ++ ?m :: _ /\ _ =>
            exists [m]; split;
            [ reflexivity
            | intros Hx; first [ reflexivity | discriminate Hx ] ]
        end ].
Qed.

(** The receiver prints the inbound messages in the order of their arrival,
    each at most once: what has been printed is an initial segment of what the
    transport has delivered, and unless some exception other than
    ConnectionClosed has been raised, the messages delivered are exactly
    those printed, then the one the receiver holds, then those still
    queued. *)
Theorem received_in_order ls tr s :
  run ls init = Some (tr, s) ->
  prefix_of (printed tr) (delivered ls) /\
  (without is_fault ls = true ->
   printed tr ++ in_hand (rpc s) ++ inbox s = delivered ls).
Proof.
  intros Hrun.
  destruct (received_accounting ls tr s Hrun) as (hand & Heq & Hh).
  split.
  - exists (hand ++ inbox s). exact Heq.
  - intros Hf.
    rewrite <- (Hh (run_not_crashed init ls tr s eq_refl Hrun Hf)). exact Heq.
Qed.

(** [received_in_order] at a run with two messages, the first one printed. *)
Lemma received_in_order_witness :
  prefix_of ["a"] ["a"; "b"].
Proof.
  exact (proj1 (received_in_order busy_schedule _ _ eq_refl)).
Defined.

Lemma sent_accounting ls tr s :
  run ls init = Some (tr, s) ->
  exists rest, lines_read tr = sent tr ++ rest /\ unsent_at s rest.
Proof.
  intros Hrun.
  enough (G : inv s /\
    exists rest, lines_read tr = sent tr ++ rest /\ unsent_at s rest)
    by apply G.
  apply (run_ind (fun ls tr s =>
    inv s /\
    exists rest, lines_read tr = sent tr ++ rest /\ unsent_at s rest) init)
    with (ls := ls); [ | | exact Hrun ].
  - split; [apply inv_init|]. exists []. split; [reflexivity|]. cbn. auto.
  - clear. intros ls0 tr0 s0 l ev s1 (Hi & rest & Heq & Hu) H.
    split; [eapply inv_step; eauto|].
    rewrite lines_read_app, sent_app, Heq. clear Heq.
    destruct Hi as (_ & _ & _ & _ & Hse & _).
    destruct s0 as [c i lk la rp sp].
    unfold unsent_at, is_open in *. cbn in Hu, Hse.
    step_cases H; cbn in *; rewrite ?app_nil_r;
      try (is_var sp; destruct sp);
      split_ors; subst; cbn in *; rewrite ?app_nil_r;
      try discriminate;
      try (rewrite (Hse _ eq_refl)).
    all: first
      [ exists rest; split; [reflexivity|]; cbn; auto; fail
      | exists []; split; [cbn; rewrite ?app_nil_r, <- ?app_assoc; reflexivity|];
        cbn; auto; fail
      | match goal with
        | |- exists _, _ ++ [?m] = _ ++ _ /\ _ =>
            exists [m]; split; [reflexivity|]; cbn; auto; fail
        end
      | idtac ].
    all: try (exists rest; split; [reflexivity|]; cbn; auto; lia).
    all: try (eexists; split; [reflexivity|]; cbn; auto; lia).
Qed.

(** Everything the sender pushes to the channel is a line the operator
    entered at a prompt, in the same order and without repetition; at most
    one line entered is not sent: the one in the hands of the sender, or the
    last one, lost to a closed connection or to an exception. *)
Theorem sent_lines_are_typed ls tr s :
  run ls init = Some (tr, s) ->
  prefix_of (sent tr) (lines_read tr) /\
  length (lines_read tr) <= length (sent tr) + 1 /\
  (length (sent tr) < length (lines_read tr) ->
   (exists l, lines_read tr = sent tr ++ [l] /\
              (spc s = S_release l \/ spc s = S_send l)) \/
   is_open s = false \/ crashed s = true).
Proof.
  intros Hrun.
  destruct (sent_accounting ls tr s Hrun) as (rest & Heq & Hu).
  pose proof (reachable_inv _ _ _ Hrun) as (_ & _ & _ & _ & Hse & Hsd).
  split; [exists rest; now rewrite Heq|].
  rewrite Heq, length_app.
  unfold unsent_at, crashed, rptl_connection, is_open in *.
  destruct (spc s) eqn:Es; split_ors; subst; cbn;
    split; try lia; auto; try congruence; intros Hne;
    try (left; eexists; split; [reflexivity|]; auto; fail).
  - right. left. now rewrite (Hse _ eq_refl).
  - right. right. destruct (rpc s); reflexivity.
Qed.

(** [sent_lines_are_typed] at a run in which one line is read and sent. *)
Lemma sent_lines_are_typed_witness :
  prefix_of (sent busy_trace) (lines_read busy_trace).
Proof.
  exact (proj1 (sent_lines_are_typed busy_schedule busy_trace busy_final eq_refl)).
Defined.
